(** * fuzzy-rough-learn: OWA operators and nearest-neighbour data descriptors

    A shallow embedding of [frlearn/neighbours/owa_operators.py] and
    [frlearn/neighbours/descriptors.py].

    Numbers.  A NumPy [float64] is modelled by [npfloat]: an exact rational,
    one of the two infinities, or NaN.  The special values follow IEEE 754
    (x/0, inf-inf, 0*inf, NaN propagation); finite arithmetic is exact, so
    rounding, overflow and the sign of zero are not modelled.

    Arrays.  A 1-D array is a list, a 2-D array a list of rows; operations
    along [axis=-1] act row by row.  Integer indices are [Z] and wrap around
    like Python's negative indices.

    Objects.  The arrays a fitted [Description] keeps ([self.distances],
    [self.lrd]) and the array LOF updates in place live in a heap of 1-D
    arrays; methods are written in a heap-and-exception monad. *)

From Stdlib Require Import QArith Qcanon ZArith Lia.
From stdpp Require Import base decidable option numbers list sorting strings pretty.

Local Open Scope Z_scope.

(** ** Exceptions *)

Inductive exn := TypeError | ValueError | IndexError | ZeroDivisionError.

Inductive result (A : Type) : Type :=
| Ok (a : A)
| Raise (e : exn).
Arguments Ok {A} a.
Arguments Raise {A} e.

Definition rbind {A B} (r : result A) (f : A → result B) : result B :=
  match r with Ok a => f a | Raise e => Raise e end.

Fixpoint rmapM {A B} (f : A → result B) (l : list A) : result (list B) :=
  match l with
  | [] => Ok []
  | x :: l => rbind (f x) (λ y, rbind (rmapM f l) (λ ys, Ok (y :: ys)))
  end.

Definition is_Ok {A} (r : result A) : Prop := ∃ a, r = Ok a.

Global Instance exn_eq_dec : EqDecision exn.
Proof. solve_decision. Defined.
Global Instance result_eq_dec {A} `{EqDecision A} : EqDecision (result A).
Proof. solve_decision. Defined.

(** ** float64 values *)

Inductive npfloat := Fin (q : Qc) | PInf | NInf | NaN.

Global Instance npfloat_eq_dec : EqDecision npfloat.
Proof. solve_decision. Defined.

Definition fz (z : Z) : npfloat := Fin (Qc_of_Z z).

Definition isnan (x : npfloat) : bool :=
  match x with NaN => true | _ => false end.

Definition fneg (x : npfloat) : npfloat :=
  match x with
  | Fin q => Fin (- q)%Qc
  | PInf => NInf
  | NInf => PInf
  | NaN => NaN
  end.

Definition fadd (x y : npfloat) : npfloat :=
  match x, y with
  | NaN, _ | _, NaN => NaN
  | PInf, NInf | NInf, PInf => NaN
  | PInf, _ | _, PInf => PInf
  | NInf, _ | _, NInf => NInf
  | Fin a, Fin b => Fin (a + b)%Qc
  end.

(** [inf * 0] is NaN; otherwise the sign of the infinity follows the signs. *)
Definition inf_times (pos : bool) (b : Qc) : npfloat :=
  if decide (b = 0%Qc) then NaN
  else if decide (0 < b)%Qc then (if pos then PInf else NInf)
  else (if pos then NInf else PInf).

Definition fmul (x y : npfloat) : npfloat :=
  match x, y with
  | NaN, _ | _, NaN => NaN
  | Fin a, Fin b => Fin (a * b)%Qc
  | PInf, Fin b | Fin b, PInf => inf_times true b
  | NInf, Fin b | Fin b, NInf => inf_times false b
  | PInf, PInf | NInf, NInf => PInf
  | PInf, NInf | NInf, PInf => NInf
  end.

(** Division: [x/0] is an infinity of the sign of [x], [0/0] and [inf/inf]
    are NaN, a finite value over an infinity is 0. *)
Definition fdiv (x y : npfloat) : npfloat :=
  match x, y with
  | NaN, _ | _, NaN => NaN
  | Fin a, Fin b =>
      if decide (b = 0%Qc) then
        if decide (a = 0%Qc) then NaN
        else if decide (0 < a)%Qc then PInf else NInf
      else Fin (a / b)%Qc
  | Fin _, (PInf | NInf) => Fin 0%Qc
  | PInf, Fin b => if decide (0 ≤ b)%Qc then PInf else NInf
  | NInf, Fin b => if decide (0 ≤ b)%Qc then NInf else PInf
  | (PInf | NInf), (PInf | NInf) => NaN
  end.

(** The order [np.sort] uses: NaN is placed after every other value. *)
Definition fle (x y : npfloat) : Prop :=
  match x, y with
  | _, NaN => True
  | NaN, _ => False
  | NInf, _ => True
  | _, NInf => False
  | _, PInf => True
  | PInf, _ => False
  | Fin a, Fin b => (a ≤ b)%Qc
  end.

Global Instance fle_dec : RelDecision fle.
Proof. intros x y. destruct x, y; simpl; apply _. Defined.

(** The comparison [==] of IEEE 754: NaN is equal to nothing, itself included. *)
Definition feq (x y : npfloat) : bool :=
  if isnan x || isnan y then false else bool_decide (x = y).

(** [np.maximum] propagates NaN. *)
Definition fmaximum (x y : npfloat) : npfloat :=
  if isnan x then x else if isnan y then y
  else if decide (fle x y) then y else x.

(** [np.finfo(np.float64).max = (2^53 - 1) * 2^971]. *)
Definition float_max : Qc := Qc_of_Z ((2 ^ 53 - 1) * 2 ^ 971).

(** [np.nan_to_num(x, nan=np.nan)]: the infinities become the largest and the
    smallest finite float, NaN is kept (the [nan] replacement is NaN). *)
Definition nan_to_num_keep_nan (x : npfloat) : npfloat :=
  match x with
  | PInf => Fin float_max
  | NInf => Fin (- float_max)%Qc
  | _ => x
  end.

(** ** Arrays *)

Abbreviation ndarray1 := (list npfloat).
Abbreviation ndarray2 := (list (list npfloat)).
Abbreviation intarray1 := (list Z).
Abbreviation intarray2 := (list (list Z)).

(** [np.sum(v)] and [np.mean(v)] of a 1-D array. *)
Definition np_sum (v : ndarray1) : npfloat := foldr fadd (fz 0) v.
Definition np_mean (v : ndarray1) : npfloat :=
  fdiv (np_sum v) (fz (Z.of_nat (length v))).

(** Broadcasting of two 1-D operands: equal lengths, or one of length 1. *)
Definition np_binop (f : npfloat → npfloat → npfloat) (a b : ndarray1)
  : result ndarray1 :=
  if decide (length a = length b) then Ok (zip_with f a b)
  else match a, b with
       | [x], _ => Ok (f x <$> b)
       | _, [y] => Ok ((λ x, f x y) <$> a)
       | _, _ => Raise ValueError
       end.

(** Python index normalisation: a negative index counts from the end. *)
Definition py_index {A} (l : list A) (i : Z) : result A :=
  let n := Z.of_nat (length l) in
  let j := if decide (i < 0) then i + n else i in
  if decide (0 ≤ j < n) then
    match l !! Z.to_nat j with Some x => Ok x | None => Raise IndexError end
  else Raise IndexError.

(** [a[:, j]] on a 2-D array. *)
Definition np_col {A} (a : list (list A)) (j : Z) : result (list A) :=
  rmapM (λ row, py_index row j) a.

(** [a[idx]] for an integer index array [idx] (a copy, as in NumPy). *)
Definition np_take1 (a : ndarray1) (idx : intarray1) : result ndarray1 :=
  rmapM (py_index a) idx.
Definition np_take2 (a : ndarray1) (idx : intarray2) : result ndarray2 :=
  rmapM (np_take1 a) idx.

Definition np_flip {A} (v : list A) : list A := reverse v.

(** [np.array_equal(a, b)]: the same shape and [==] at every position. *)
Definition np_array_equal (a b : ndarray1) : bool :=
  bool_decide (length a = length b) && forallb (λ p, feq p.1 p.2) (zip a b).

(** [np.cumprod(v)]: the running products. *)
Fixpoint cumprod_from (acc : npfloat) (v : ndarray1) : ndarray1 :=
  match v with
  | [] => []
  | x :: v => let acc' := fmul acc x in acc' :: cumprod_from acc' v
  end.
Definition np_cumprod (v : ndarray1) : ndarray1 := cumprod_from (fz 1) v.

(** [np.arange(a, b)] for integers. *)
Definition np_arange (a b : Z) : intarray1 := seqZ a (b - a).

(** [np.zeros(n)], [np.ones(n)], [np.full(n, x)]: a negative size is refused. *)
Definition np_full (n : Z) (x : npfloat) : result ndarray1 :=
  if decide (n < 0) then Raise ValueError else Ok (replicate (Z.to_nat n) x).
Definition np_zeros (n : Z) : result ndarray1 := np_full n (fz 0).
Definition np_ones (n : Z) : result ndarray1 := np_full n (fz 1).

Definition np_sort (v : ndarray1) : ndarray1 := merge_sort fle v.

(** Modelled from the spec: [frlearn.utils.limit_and_sort], which is not part
    of the two source files.  The spec describes what [_apply] gets from it:
    for the soft maximum "the top-k values sorted descending", for the soft
    minimum "the bottom-k values sorted ascending".  A positive [k] selects
    the [k] smallest values in ascending order, a negative [k] the [-k]
    largest values in descending order. *)
Definition limit_and_sort (v : ndarray1) (k : Z) : ndarray1 :=
  if decide (0 < k) then take (Z.to_nat k) (np_sort v)
  else if decide (k < 0) then take (Z.to_nat (- k)) (reverse (np_sort v))
  else [].

(** ** owa_operators.py *)

(** A positional argument of a method call. *)
Inductive pyval := PyArray (a : ndarray2) | PyInt (z : Z).

Module OWAOperator.

Record t := mk { w : ndarray1; k : Z; max_like : bool; name : option string }.

(** [__init__(self, w, *, max_like, name=None)] *)
Definition __init__ (w : ndarray1) (max_like : bool) (name : option string) : t :=
  {| w := w; k := Z.of_nat (length w); max_like := max_like; name := name |}.

(** [from_function(cls, f, k, *, scale=False, max_like, name=None)] *)
Definition from_function (f : Z → result ndarray1) (k : Z) (scale : bool)
    (max_like : bool) (name : option string) : result t :=
  rbind (f k) (λ w,
    let w := if scale then (λ x, fdiv x (np_sum w)) <$> w else w in
    let name := Some (default "None" name +:+ "(" +:+ pretty k +:+ ")") in
    Ok (__init__ w max_like name)).

(** [family(cls, f, *, scale=False, max_like, name=None)]: the partial
    application of [from_function]. *)
Definition family (f : Z → result ndarray1) (scale : bool) (max_like : bool)
    (name : option string) : Z → result t :=
  λ k, from_function f k scale max_like name.

(** [__eq__(self, other)]: the right operand is an operator or some other
    object; for the latter the method returns [NotImplemented]. *)
Inductive pyobj := PyOp (op : t) | PyOther (v : pyval).
Inductive eq_result := EqBool (b : bool) | NotImplemented.

Definition __eq__ (self : t) (other : pyobj) : eq_result :=
  match other with
  | PyOp other =>
      EqBool (np_array_equal (w self) (w other)
              && bool_decide (max_like self = max_like other))
  | PyOther _ => NotImplemented
  end.

(** [__len__] *)
Definition __len__ (self : t) : Z := k self.

(** [_apply(self, v, as_soft_max)] on a 1-D array. *)
Definition _apply (self : t) (v : ndarray1) (as_soft_max : bool) : result npfloat :=
  let w := if max_like self && as_soft_max then w self else np_flip (w self) in
  let v := if as_soft_max then limit_and_sort v (- k self)
           else np_flip (limit_and_sort v (k self)) in
  rbind (np_binop fmul v w) (λ vw, Ok (np_sum vw)).

Definition soft_max (self : t) (v : ndarray1) : result npfloat := _apply self v true.
Definition soft_min (self : t) (v : ndarray1) : result npfloat := _apply self v false.

(** The same on a 2-D array: sorting, product and sum run along [axis=-1].
    For the soft minimum [np.flip] is called without an axis and reverses
    the rows as well, so that the results come in reversed row order. *)
Definition _apply_rows (self : t) (v : ndarray2) (as_soft_max : bool)
  : result ndarray1 :=
  if as_soft_max then rmapM (λ row, _apply self row true) v
  else rbind (rmapM (λ row, _apply self row false) v) (λ r, Ok (np_flip r)).

(** A call [op.soft_max(args...)] from untyped code.  The signature is
    [soft_max(self, v)]: any number of positional arguments other than one
    is a TypeError. *)
Definition call_soft_max (self : t) (args : list pyval) : result ndarray1 :=
  match args with
  | [PyArray v] => _apply_rows self v true
  | [PyInt _] => Raise ValueError
  | _ => Raise TypeError
  end.

End OWAOperator.

Definition strict : OWAOperator.t :=
  OWAOperator.__init__ [fz 1] true (Some "strict").

Definition additive_weights (k : Z) : result ndarray1 :=
  Ok ((λ i, fdiv (fz (2 * i)) (fz (k * (k + 1)))) <$> np_arange 1 (k + 1)).
Definition additive : Z → result OWAOperator.t :=
  OWAOperator.family additive_weights false false (Some "additive").

Definition exponential_weights (k : Z) : result ndarray1 :=
  if decide (k < 32) then
    Ok (np_flip ((λ j, fdiv (fz (2 ^ j)) (fz (2 ^ k - 1))) <$> np_arange 0 k))
  else rbind (np_full k (Fin (1 / 2)%Qc)) (λ a, Ok (np_cumprod a)).
Definition exponential : Z → result OWAOperator.t :=
  OWAOperator.family exponential_weights false true (Some "exponential").

Definition invadd_weights (k : Z) : result ndarray1 :=
  let h := np_sum ((λ i, fdiv (fz 1) (fz i)) <$> np_arange 1 (k + 1)) in
  Ok ((λ i, fdiv (fz 1) (fmul (fz i) h)) <$> np_arange 1 (k + 1)).
Definition invadd : Z → result OWAOperator.t :=
  OWAOperator.family invadd_weights false true (Some "invadd").

Definition mean_weights (k : Z) : result ndarray1 :=
  if decide (k = 0) then Raise ZeroDivisionError
  else np_full k (Fin (1 / Qc_of_Z k)%Qc).
Definition mean : Z → result OWAOperator.t :=
  OWAOperator.family mean_weights false false (Some "mean").

Definition trimmed_weights (k : Z) : result ndarray1 :=
  rbind (np_zeros (k - 1)) (λ z, rbind (np_ones 1) (λ o, Ok (z ++ o))).
Definition trimmed : Z → result OWAOperator.t :=
  OWAOperator.family trimmed_weights false false (Some "trimmed").

(** ** Heap of 1-D arrays and the method monad *)

Abbreviation loc := nat.
Abbreviation heap := (list (list npfloat)).

(** A method run: it may raise, and it leaves a heap either way. *)
Definition M (A : Type) : Type := heap → result A * heap.

Global Instance M_ret : MRet M := λ A a h, (Ok a, h).
Global Instance M_bind : MBind M := λ A B f m h,
  match m h with
  | (Ok a, h') => f a h'
  | (Raise e, h') => (Raise e, h')
  end.

Definition lift {A} (r : result A) : M A := λ h, (r, h).

(** A new array object. *)
Definition alloc (a : ndarray1) : M loc := λ h, (Ok (length h), h ++ [a]).
(** Reading the array a reference points to. *)
Definition load (l : loc) : M ndarray1 := λ h,
  match h !! l with Some a => (Ok a, h) | None => (Raise ValueError, h) end.
(** In-place update of an array object. *)
Definition modify (l : loc) (f : ndarray1 → ndarray1) : M () := λ h,
  match h !! l with
  | Some a => (Ok (), <[l := f a]> h)
  | None => (Raise ValueError, h)
  end.

(** ** Collaborators of descriptors.py that are outside the two source files *)

(** Modelled from the spec: [frlearn.utils.np_utils.shifted_reciprocal], the
    default proximity transform [x ↦ 1/(1+x)]. *)
Definition shifted_reciprocal (x : npfloat) : npfloat := fdiv (fz 1) (fadd (fz 1) x).

(** Modelled from the spec: [frlearn.utils.np_utils.div_or], the safe
    division [x / y] "with the convention that 0/0 = fallback"; "any NaN that
    is not the 0/0 case is preserved unchanged". *)
Definition div_or1 (fallback : npfloat) (x y : npfloat) : npfloat :=
  if decide (x = fz 0 ∧ y = fz 0) then fallback else fdiv x y.
Definition div_or (x y : ndarray1) (fallback : npfloat) : result ndarray1 :=
  np_binop (div_or1 fallback) x y.

(** Modelled from the spec: the operator class that descriptors.py imports
    from [frlearn.utils.owa_operators], which is not part of the two source
    files.  NND holds such an operator and calls its
    [soft_max(proximities, self.k)].  An operator of that class gives its
    weight vector for the length it is asked for, and the call is the
    spec's softMax for the length [k]: "taking the top-k values of values
    sorted descending (k = length)", "applying weights in their stored
    order if maxLike is true, else applying the reverse of weights",
    "returning the weighted sum", for each query point. *)
Module ImportedOWAOperator.

Record t := mk { weights : Z → result ndarray1; max_like : bool }.

Definition soft_max (self : t) (v : ndarray2) (k : Z) : result ndarray1 :=
  rbind (weights self k) (λ w,
    let w := if max_like self then w else np_flip w in
    rmapM (λ row, rbind (np_binop fmul (limit_and_sort row (- k)) w)
                        (λ vw, Ok (np_sum vw))) v).

(** Modelled from the spec: [trimmed], "weight 1 on the k-th position, 0
    elsewhere, maxLike=false". *)
Definition trimmed : t := {| weights := trimmed_weights; max_like := false |}.

End ImportedOWAOperator.

(** Modelled from the spec: the neighbour index contract.  [query(points, k)]
    and [query_self(k)] return the neighbour indices and the distances, one
    row per point; an index may refuse its arguments. *)
Record Index := {
  index_len : Z;
  index_query : ndarray2 → Z → result (intarray2 * ndarray2);
  index_query_self : Z → result (intarray2 * ndarray2);
}.

(** ** descriptors.py *)

(** Broadcasting of two 2-D operands, row by row. *)
Definition np_binop2 (f : npfloat → npfloat → npfloat) (a b : ndarray2)
  : result ndarray2 :=
  if decide (length a = length b) then rmapM (λ '(r, s), np_binop f r s) (zip a b)
  else match a, b with
       | [r], _ => rmapM (np_binop f r) b
       | _, [s] => rmapM (λ r, np_binop f r s) a
       | _, _ => Raise ValueError
       end.

(** A scalar function applied to a 2-D array acts elementwise. *)
Definition np_map2 (f : npfloat → npfloat) (a : ndarray2) : ndarray2 :=
  map (map f) a.

(** The masked assignment [a[np.isnan(a)] = 1], elementwise. *)
Definition nan_to_one (x : npfloat) : npfloat := if isnan x then fz 1 else x.

(** [k : Union[int, Callable[[int], int]]] *)
Inductive kparam := KInt (k : Z) | KFun (f : Z → Z).

(** [NNDescriptor.Description.__init__]: [self.k]. *)
Definition resolve_k (k : kparam) (index : Index) : Z :=
  match k with
  | KFun f => f (index_len index)
  | KInt k => k
  end.

(** [NNDescriptor.Description]: the abstract method [_query] and the fields
    the base class sets. *)
Class NNDescription (D : Type) := {
  self_k : D → Z;
  self_index : D → Index;
  _query : D → intarray2 → ndarray2 → M ndarray1;
}.

(** [NNDescriptor.Description.query] *)
Definition query `{NNDescription D} (self : D) (X : ndarray2) : M ndarray1 :=
  '(q_neighbours, q_distances) ← lift (index_query (self_index self) X (self_k self));
  _query self q_neighbours q_distances.

Module NND.

Record Descriptor := {
  k : kparam;
  proximity : npfloat → npfloat;
  owa : OWAOperator.t;
}.

Record Description := {
  d_k : Z;
  d_index : Index;
  d_proximity : npfloat → npfloat;
  d_owa : OWAOperator.t;
}.

Definition __init__ (descriptor : Descriptor) (index : Index) : M Description :=
  mret {| d_k := resolve_k (k descriptor) index;
          d_index := index;
          d_proximity := proximity descriptor;
          d_owa := owa descriptor |}.

Definition _query (self : Description) (q_neighbours : intarray2)
    (q_distances : ndarray2) : M ndarray1 :=
  let proximities := np_map2 (d_proximity self) q_distances in
  score ← lift (OWAOperator.call_soft_max (d_owa self)
                  [PyArray proximities; PyInt (d_k self)]);
  mret score.

End NND.

Global Instance NND_Description : NNDescription NND.Description :=
  {| self_k := NND.d_k; self_index := NND.d_index; _query := NND._query |}.

(** The class NND once more, holding an operator of the class that
    descriptors.py imports; [__init__] and [_query] are the same code. *)
Module NNDImported.

Record Descriptor := {
  k : kparam;
  proximity : npfloat → npfloat;
  owa : ImportedOWAOperator.t;
}.

Record Description := {
  d_k : Z;
  d_index : Index;
  d_proximity : npfloat → npfloat;
  d_owa : ImportedOWAOperator.t;
}.

Definition __init__ (descriptor : Descriptor) (index : Index) : M Description :=
  mret {| d_k := resolve_k (k descriptor) index;
          d_index := index;
          d_proximity := proximity descriptor;
          d_owa := owa descriptor |}.

Definition _query (self : Description) (q_neighbours : intarray2)
    (q_distances : ndarray2) : M ndarray1 :=
  let proximities := np_map2 (d_proximity self) q_distances in
  score ← lift (ImportedOWAOperator.soft_max (d_owa self) proximities (d_k self));
  mret score.

End NNDImported.

Global Instance NNDImported_Description : NNDescription NNDImported.Description :=
  {| self_k := NNDImported.d_k; self_index := NNDImported.d_index;
     _query := NNDImported._query |}.

Module LNND.

Record Descriptor := { k : kparam }.

Record Description := {
  d_k : Z;
  d_index : Index;
  d_distances : loc;
}.

Definition __init__ (descriptor : Descriptor) (index : Index) : M Description :=
  let k := resolve_k (k descriptor) index in
  '(_, distances) ← lift (index_query_self index k);
  col ← lift (np_col distances (k - 1));
  self_distances ← alloc col;
  mret {| d_k := k; d_index := index; d_distances := self_distances |}.

Definition _query (self : Description) (q_neighbours : intarray2)
    (q_distances : ndarray2) : M ndarray1 :=
  q_col ← lift (np_col q_distances (d_k self - 1));
  n_col ← lift (np_col q_neighbours (d_k self - 1));
  distances ← load (d_distances self);
  n_distances ← lift (np_take1 distances n_col);
  l_distances ← lift (div_or q_col n_distances (fz 1));
  let l_distances := nan_to_num_keep_nan <$> l_distances in
  mret (shifted_reciprocal <$> l_distances).

End LNND.

Global Instance LNND_Description : NNDescription LNND.Description :=
  {| self_k := LNND.d_k; self_index := LNND.d_index; _query := LNND._query |}.

Module LOF.

Record Descriptor := { k : kparam }.

Record Description := {
  d_k : Z;
  d_index : Index;
  d_distances : loc;
  d_lrd : loc;
}.

(** [_get_lrd]; it reads [self.distances]. *)
Definition _get_lrd (self_distances : loc) (q_neighbours : intarray2)
    (q_distances : ndarray2) : M ndarray1 :=
  distances ← load self_distances ;
  floor ← lift (np_take2 distances q_neighbours);
  r_distances ← lift (np_binop2 fmaximum q_distances floor);
  mret ((λ row, fdiv (fz 1) (np_mean row)) <$> r_distances).

Definition __init__ (model : Descriptor) (index : Index) : M Description :=
  let k := resolve_k (k model) index in
  '(neighbours, distances) ← lift (index_query_self index k);
  col ← lift (np_col distances (k - 1));
  self_distances ← alloc col;
  lrd ← _get_lrd self_distances neighbours distances;
  self_lrd ← alloc lrd;
  mret {| d_k := k; d_index := index;
          d_distances := self_distances; d_lrd := self_lrd |}.

Definition _query (self : Description) (q_neighbours : intarray2)
    (q_distances : ndarray2) : M ndarray1 :=
  q_lrd ← _get_lrd (d_distances self) q_neighbours q_distances;
  lrd ← load (d_lrd self);
  n_lrd ← lift (np_take2 lrd q_neighbours);
  ratio ← lift (np_binop fdiv (np_mean <$> n_lrd) q_lrd);
  lof ← alloc ratio;
  modify lof (fmap nan_to_one);;
  lof_values ← load lof;
  mret (shifted_reciprocal <$> lof_values).

End LOF.

Global Instance LOF_Description : NNDescription LOF.Description :=
  {| self_k := LOF.d_k; self_index := LOF.d_index; _query := LOF._query |}.

(** ** An exact index over 1-D points *)

(** Modelled from the spec: an exact nearest-neighbour index for a reference
    set of points on a line, following the index contract: the [k] nearest
    reference points by ascending distance; [query_self] leaves the point
    itself out; a [k] outside the reference set is refused. *)
Definition fabs (x : npfloat) : npfloat :=
  if decide (fle x (fz 0)) then fneg x else x.

Definition distance1 (x r : npfloat) : npfloat := fabs (fadd x (fneg r)).

Definition by_distance (p q : Z * npfloat) : Prop := fle p.2 q.2.
Global Instance by_distance_dec : RelDecision by_distance.
Proof. intros p q. unfold by_distance. apply _. Defined.

Definition nearest (cands : list (Z * npfloat)) (x : npfloat) (k : Z)
  : intarray1 * ndarray1 :=
  let ranked := merge_sort by_distance ((λ c, (c.1, distance1 x c.2)) <$> cands) in
  let best := take (Z.to_nat k) ranked in
  (fst <$> best, snd <$> best).

Definition exact_index_1d (refs : ndarray1) : Index :=
  let n := Z.of_nat (length refs) in
  let cands := zip (seqZ 0 n) refs in
  {| index_len := n;
     index_query X k :=
       if decide (0 < k ≤ n) then
         rbind (rmapM (λ row, match row with
                              | [x] => Ok (nearest cands x k)
                              | _ => Raise ValueError
                              end) X)
               (λ rows, Ok (fst <$> rows, snd <$> rows))
       else Raise ValueError;
     index_query_self k :=
       if decide (0 < k < n) then
         let rows := (λ c, nearest (filter (λ c', c'.1 ≠ c.1) cands) c.2 k) <$> cands in
         Ok (fst <$> rows, snd <$> rows)
       else Raise ValueError |}.

(** ** Notions the properties are stated with *)

Definition Qsum (l : list Qc) : Qc := foldr Qcplus 0%Qc l.
Definition Zsum (l : list Z) : Z := foldr Z.add 0 l.
Definition Qdot (a w : list Qc) : Qc := Qsum (zip_with Qcmult a w).

(** The descending order. *)
Definition fge : relation npfloat := flip fle.

(** A finite, non-negative weight; a weight vector of the probability
    simplex has such entries and the exact sum 1. *)
Definition nonneg (x : npfloat) : Prop :=
  match x with Fin q => (0 ≤ q)%Qc | _ => False end.
Definition simplex (w : ndarray1) : Prop :=
  Forall nonneg w ∧ np_sum w = fz 1.

(** A family member for [k]: an operator of length [k] on the simplex. *)
Definition yields_simplex (family : Z → result OWAOperator.t) (k : Z) : Prop :=
  ∃ op, family k = Ok op ∧ OWAOperator.k op = k ∧
        length (OWAOperator.w op) = Z.to_nat k ∧ simplex (OWAOperator.w op).

(** Every predefined family on the simplex, read literally. *)
Definition families_as_stated (k : Z) : Prop :=
  1 ≤ k →
  simplex (OWAOperator.w strict) ∧
  yields_simplex additive k ∧ yields_simplex exponential k ∧
  yields_simplex invadd k ∧ yields_simplex mean k ∧ yields_simplex trimmed k.

(** The k-th smallest and the k-th largest value of a vector (k from 1). *)
Definition kth_smallest (v : ndarray1) (k : Z) : option npfloat :=
  np_sort v !! Z.to_nat (k - 1).
Definition kth_largest (v : ndarray1) (k : Z) : option npfloat :=
  reverse (np_sort v) !! Z.to_nat (k - 1).

(** The dual operator: the reversed weight vector with the flipped flag. *)
Definition dual (op : OWAOperator.t) : OWAOperator.t :=
  OWAOperator.__init__ (reverse (OWAOperator.w op))
    (negb (OWAOperator.max_like op)) (OWAOperator.name op).

(** The duality of the soft minimum and the soft maximum, read literally:
    for a simplex weight vector and a long enough input, the soft minimum
    is the soft maximum of the dual operator on the same input. *)
Definition duality_as_stated (w : ndarray1) (max_like : bool) (v : ndarray1) : Prop :=
  simplex w → (length w ≤ length v)%nat →
  let op := OWAOperator.__init__ w max_like None in
  OWAOperator.soft_min op v = OWAOperator.soft_max (dual op) v.

(** The trimmed operator selecting the k-th largest and the k-th smallest
    value, read literally. *)
Definition trimmed_as_stated (k : Z) (v : ndarray1) : Prop :=
  1 ≤ k ≤ Z.of_nat (length v) →
  ∀ op, trimmed k = Ok op →
    ∃ x y, kth_largest v k = Some x ∧ OWAOperator.soft_max op v = Ok x ∧
           kth_smallest v k = Some y ∧ OWAOperator.soft_min op v = Ok y.

(** Query point [i]: its k-th nearest reference point is [r], at distance [dp]. *)
Definition kth_neighbour (q_neighbours : intarray2) (q_distances : ndarray2)
    (k : Z) (i : nat) (r : Z) (dp : npfloat) : Prop :=
  ∃ nrow drow, q_neighbours !! i = Some nrow ∧ q_distances !! i = Some drow ∧
               py_index nrow (k - 1) = Ok r ∧ py_index drow (k - 1) = Ok dp.

(** The fitted self-distance of reference point [r]. *)
Definition LNND_self_distance (d : LNND.Description) (h : heap) (r : Z)
    (sd : npfloat) : Prop :=
  ∃ D, h !! LNND.d_distances d = Some D ∧ py_index D r = Ok sd.


(** The LNND score of a query point whose k-th neighbour distance [dp] and
    whose neighbour's self-distance [sd] are given: that it is [expected]. *)
Definition LNND_score_is (expected : npfloat) (dp sd : npfloat)
    (d : LNND.Description) (X : ndarray2) (h : heap) (i : nat) : Prop :=
  ∀ qn qd scores h' r,
    index_query (LNND.d_index d) X (LNND.d_k d) = Ok (qn, qd) →
    length qn = length qd →
    query d X h = (Ok scores, h') →
    kth_neighbour qn qd (LNND.d_k d) i r dp →
    LNND_self_distance d h r sd →
    scores !! i = Some expected.

(** Both distances zero gives the score 1, read literally. *)
Definition LNND_zero_zero_as_stated (d : LNND.Description) (X : ndarray2)
    (h : heap) (i : nat) : Prop :=
  LNND_score_is (fz 1) (fz 0) (fz 0) d X h i.



(** The fitted arrays of a description are objects of the heap. *)
Definition LNND_fitted (d : LNND.Description) (h : heap) : Prop :=
  is_Some (h !! LNND.d_distances d).
Definition LOF_fitted (d : LOF.Description) (h : heap) : Prop :=
  is_Some (h !! LOF.d_distances d) ∧ is_Some (h !! LOF.d_lrd d).

(** Two queries in a row with the same input: the same result both times,
    and each run only adds objects to the heap, so that every array that
    existed before (the fitted state) is untouched. *)
Definition query_twice_same `{NNDescription D} (d : D) (h : heap) : Prop :=
  ∀ X, ∃ r h1 h2,
    query d X h = (r, h1) ∧ query d X h1 = (r, h2) ∧
    h `prefix_of` h1 ∧ h1 `prefix_of` h2.

(** A [k] that is not a positive integer up to the size of the reference set. *)
Definition invalid_k (k : Z) (index : Index) : Prop :=
  k ≤ 0 ∨ index_len index < k.

(** Fit refusing an invalid [k], read literally, for NND. *)
Definition nnd_fit_rejects_as_stated (descriptor : NND.Descriptor) (index : Index) : Prop :=
  invalid_k (resolve_k (NND.k descriptor) index) index →
  ∃ e, (NND.__init__ descriptor index []).1 = Raise e.

(** A value that is not negative: a finite value from zero on, plus
    infinity, or NaN. *)
Definition not_negative (x : npfloat) : Prop :=
  match x with Fin q => (0 ≤ q)%Qc | NInf => False | _ => True end.

(** A score of the unit interval, and one that is above zero as well. *)
Definition in_unit (x : npfloat) : Prop :=
  match x with Fin q => (0 ≤ q ≤ 1)%Qc | _ => False end.
Definition in_unit_pos (x : npfloat) : Prop :=
  match x with Fin q => (0 < q ≤ 1)%Qc | _ => False end.

(** A value that is not finite: an infinity or NaN. *)
Definition not_finite (x : npfloat) : Prop :=
  match x with Fin _ => False | _ => True end.

(** A neighbour index that does not address a reference point: outside
    the indices Python accepts for an array of that length. *)
Definition out_of_range (D : ndarray1) (r : Z) : Prop :=
  ¬ (- Z.of_nat (length D) ≤ r < Z.of_nat (length D)).

(** ** Scenario data *)

(** Four collinear reference points 0, 1, 2, 3. *)
Definition refs4 : ndarray1 := [fz 0; fz 1; fz 2; fz 3].
(** A reference set with a duplicated point. *)
Definition refs_dup : ndarray1 := [fz 0; fz 0].

Definition trimmed1 : OWAOperator.t :=
  OWAOperator.mk [fz 1] 1 false (Some "trimmed(1)").
Definition trimmed2 : OWAOperator.t :=
  OWAOperator.mk [fz 0; fz 1] 2 false (Some "trimmed(2)").

Definition nnd_descriptor (k : Z) : NND.Descriptor :=
  {| NND.k := KInt k; NND.proximity := shifted_reciprocal; NND.owa := trimmed1 |}.
Definition nnd_description (k : Z) (refs : ndarray1) : NND.Description :=
  {| NND.d_k := k; NND.d_index := exact_index_1d refs;
     NND.d_proximity := shifted_reciprocal; NND.d_owa := trimmed1 |}.

(** NND with the imported [trimmed] operator and the default proximity. *)
Definition nnd_imported_descriptor (k : Z) : NNDImported.Descriptor :=
  {| NNDImported.k := KInt k; NNDImported.proximity := shifted_reciprocal;
     NNDImported.owa := ImportedOWAOperator.trimmed |}.
Definition nnd_imported_description (k : Z) (refs : ndarray1) : NNDImported.Description :=
  {| NNDImported.d_k := k; NNDImported.d_index := exact_index_1d refs;
     NNDImported.d_proximity := shifted_reciprocal;
     NNDImported.d_owa := ImportedOWAOperator.trimmed |}.

(** The weights of [trimmed(2)] under the other flag. *)
Definition trimmed2_max_like : OWAOperator.t :=
  OWAOperator.mk [fz 0; fz 1] 2 true (Some "trimmed(2)").

(** LNND and LOF with [k = 1], as fitted on a reference set: the description
    and the heap that holds its arrays. *)
Definition lnnd_description (refs : ndarray1) : LNND.Description :=
  {| LNND.d_k := 1; LNND.d_index := exact_index_1d refs; LNND.d_distances := 0%nat |}.
Definition lof_description (refs : ndarray1) : LOF.Description :=
  {| LOF.d_k := 1; LOF.d_index := exact_index_1d refs;
     LOF.d_distances := 0%nat; LOF.d_lrd := 1%nat |}.

Definition half : npfloat := Fin (1 / 2)%Qc.

(** The heaps these fits leave: the self-distances, and for LOF the local
    reachability densities. *)
Definition lnnd_heap_dup : heap := [[fz 0; fz 0]].
Definition lof_heap4 : heap := [[fz 1; fz 1; fz 1; fz 1]; [fz 1; fz 1; fz 1; fz 1]].
(** The heap of LOF's fit on the duplicated point: self-distances 0 and
    infinite densities. *)
Definition lof_heap_dup : heap := [[fz 0; fz 0]; [PInf; PInf]].

(** An index over one reference point that reports a missing neighbour
    the way SciPy's trees do: by the index n and an infinite distance. *)
Definition missing_neighbour_index : Index :=
  {| index_len := 1;
     index_query X k := Ok ((λ _, [1]) <$> X, (λ _, [PInf]) <$> X);
     index_query_self k := Ok ([[1]], [[PInf]]) |}.

(** * Properties *)

(** ** Deciding equalities between computed values *)

Lemma decide_eq_true {A} `{EqDecision A} (x y : A) : bool_decide (x = y) = true → x = y.
Proof. apply bool_decide_eq_true_1. Qed.

Lemma decide_eq_false {A} `{EqDecision A} (x y : A) : bool_decide (x = y) = false → x ≠ y.
Proof. apply bool_decide_eq_false_1. Qed.

Ltac by_evaluation :=
  lazymatch goal with
  | |- _ ≠ _ => apply decide_eq_false; vm_compute; reflexivity
  | |- _ = _ → False => apply decide_eq_false; vm_compute; reflexivity
  | |- _ = _ => apply decide_eq_true; vm_compute; reflexivity
  end.

(** ** The result monad *)

Lemma rbind_Ok {A B} (r : result A) (f : A → result B) b :
  rbind r f = Ok b ↔ ∃ a, r = Ok a ∧ f a = Ok b.
Proof.
  destruct r as [a|e]; simpl; split.
  - eauto.
  - by intros (a' & [= <-] & Hf).
  - done.
  - by intros (a' & [=] & _).
Qed.

Lemma rmapM_Ok_cons {A B} (f : A → result B) x l ys :
  rmapM f (x :: l) = Ok ys ↔ ∃ y ys', f x = Ok y ∧ rmapM f l = Ok ys' ∧ ys = y :: ys'.
Proof.
  simpl. rewrite rbind_Ok. split.
  - intros (y & Hy & Hr). apply rbind_Ok in Hr as (ys' & Hys & [= <-]). eauto.
  - intros (y & ys' & Hy & Hys & ->). exists y. by rewrite Hys.
Qed.

Lemma rmapM_length {A B} (f : A → result B) l ys :
  rmapM f l = Ok ys → length ys = length l.
Proof.
  revert ys. induction l as [|x l IH]; intros ys.
  - by intros [= <-].
  - rewrite rmapM_Ok_cons. intros (y & ys' & _ & Hys & ->). simpl. by rewrite (IH ys').
Qed.

Lemma rmapM_lookup {A B} (f : A → result B) l ys i x :
  rmapM f l = Ok ys → l !! i = Some x → ∃ y, f x = Ok y ∧ ys !! i = Some y.
Proof.
  revert ys i. induction l as [|x' l IH]; intros ys i; [done|].
  rewrite rmapM_Ok_cons. intros (y & ys' & Hy & Hys & ->).
  destruct i as [|i]; simpl.
  - intros [= ->]. eauto.
  - eauto.
Qed.


(** ** Exact arithmetic on finite values *)

Section finite_arith.
Local Open Scope Qc_scope.

Lemma Qc_of_Z_nonzero z : z ≠ 0%Z → Qc_of_Z z ≠ 0.
Proof. rewrite <-Z2Qc_inj_0. intros Hz Heq. by apply Z2Qc_inj in Heq. Qed.

Lemma Qc_of_Z_pos z : (0 < z)%Z → 0 < Qc_of_Z z.
Proof. rewrite <-Z2Qc_inj_0. apply Z2Qc_inj_lt. Qed.

Lemma Qc_of_Z_nonneg z : (0 ≤ z)%Z → 0 ≤ Qc_of_Z z.
Proof. rewrite <-Z2Qc_inj_0. apply Z2Qc_inj_le. Qed.

Lemma Qcdiv_nonneg a c : 0 ≤ a → 0 < c → 0 ≤ a / c.
Proof.
  intros Ha Hc. unfold Qcdiv.
  apply Qcmult_nonneg_nonneg; [done|]. by apply Qclt_le_weak, Qcinv_pos.
Qed.

Lemma Qcdiv_self c : c ≠ 0 → c / c = 1.
Proof. intros Hc. by field. Qed.

Lemma fdiv_Fin a b : b ≠ 0 → fdiv (Fin a) (Fin b) = Fin (a / b).
Proof. intros Hb. unfold fdiv. by rewrite decide_False. Qed.

Lemma fdiv_fz a b : b ≠ 0%Z → fdiv (fz a) (fz b) = Fin (Qc_of_Z a / Qc_of_Z b).
Proof. intros Hb. apply fdiv_Fin. by apply Qc_of_Z_nonzero. Qed.

Lemma np_sum_nil : np_sum [] = Fin 0.
Proof. unfold np_sum, fz. by rewrite Z2Qc_inj_0. Qed.

Lemma np_sum_cons x v : np_sum (x :: v) = fadd x (np_sum v).
Proof. done. Qed.

Lemma Qsum_cons q l : Qsum (q :: l) = q + Qsum l.
Proof. done. Qed.

Lemma Zsum_cons z l : Zsum (z :: l) = (z + Zsum l)%Z.
Proof. done. Qed.

Lemma Zsum_app l1 l2 : Zsum (l1 ++ l2) = (Zsum l1 + Zsum l2)%Z.
Proof.
  induction l1 as [|z l1 IH]; [done|].
  rewrite <-app_comm_cons, !Zsum_cons, IH. lia.
Qed.

Lemma np_sum_Fin l : np_sum (Fin <$> l) = Fin (Qsum l).
Proof.
  induction l as [|q l IH]; [apply np_sum_nil|].
  rewrite fmap_cons, np_sum_cons, IH. done.
Qed.

Lemma Forall_nonneg_Fin l : Forall (λ q, 0 ≤ q) l → Forall nonneg (Fin <$> l).
Proof. intros Hl. by apply Forall_fmap. Qed.

Lemma Qsum_app l1 l2 : Qsum (l1 ++ l2) = Qsum l1 + Qsum l2.
Proof.
  induction l1 as [|q l1 IH].
  - change (Qsum []) with (Q2Qc 0). by rewrite Qcplus_0_l.
  - rewrite <-app_comm_cons, !Qsum_cons, IH. ring.
Qed.

Lemma Qsum_reverse l : Qsum (reverse l) = Qsum l.
Proof.
  induction l as [|q l IH]; [done|].
  rewrite reverse_cons, Qsum_app, IH, !Qsum_cons.
  change (Qsum []) with (Q2Qc 0). ring.
Qed.

Lemma Qsum_replicate n q : Qsum (replicate n q) = Qc_of_Z (Z.of_nat n) * q.
Proof.
  induction n as [|n IH].
  - change (Q2Qc 0 = Qc_of_Z 0 * q). rewrite Z2Qc_inj_0. ring.
  - rewrite Nat2Z.inj_succ, <-Z.add_1_r, Z2Qc_inj_add, Z2Qc_inj_1.
    change (replicate (S n) q) with (q :: replicate n q).
    rewrite Qsum_cons, IH. ring.
Qed.

(** Dividing every term by a common denominator. *)
Lemma Qsum_div_const (f : Z → Z) c l :
  c ≠ 0 →
  Qsum ((λ i, Qc_of_Z (f i) / c) <$> l) = Qc_of_Z (Zsum (f <$> l)) / c.
Proof.
  intros Hc. induction l as [|i l IH].
  - change (Q2Qc 0 = Qc_of_Z 0 / c). rewrite Z2Qc_inj_0. by field.
  - rewrite !fmap_cons, Qsum_cons, Zsum_cons, IH, Z2Qc_inj_add. by field.
Qed.

(** Σ_{i=1..n} 2i = n(n+1) and Σ_{j=0..n-1} 2^j = 2^n - 1. *)
Lemma Zsum_double n :
  Zsum (Z.mul 2 <$> seqZ 1 (Z.of_nat n)) = (Z.of_nat n * (Z.of_nat n + 1))%Z.
Proof.
  induction n as [|n IH]; [done|].
  rewrite seqZ_S, fmap_app, Zsum_app, IH.
  change (Zsum (Z.mul 2 <$> [(1 + Z.of_nat n)%Z])) with (2 * (1 + Z.of_nat n) + 0)%Z.
  lia.
Qed.

Lemma Zsum_pow2 n :
  Zsum (Z.pow 2 <$> seqZ 0 (Z.of_nat n)) = (2 ^ Z.of_nat n - 1)%Z.
Proof.
  induction n as [|n IH]; [done|].
  rewrite seqZ_S, fmap_app, Zsum_app, IH.
  change (Zsum (Z.pow 2 <$> [(0 + Z.of_nat n)%Z])) with (2 ^ (0 + Z.of_nat n) + 0)%Z.
  rewrite Nat2Z.inj_succ, Z.pow_succ_r by lia. rewrite Z.add_0_l. lia.
Qed.
End finite_arith.

(** ** The predefined weight families *)

Section families.
Local Open Scope Qc_scope.

Lemma family_Ok f ml nm (k : Z) w :
  f k = Ok w →
  ∃ nm', OWAOperator.family f false ml nm k = Ok (OWAOperator.__init__ w ml nm').
Proof.
  intros Hf. unfold OWAOperator.family, OWAOperator.from_function.
  rewrite Hf. simpl. eauto.
Qed.

(** What makes a generated vector a member of the family at [k]. *)
Lemma yields_simplex_intro f ml nm (k : Z) qs :
  (0 ≤ k)%Z →
  f k = Ok (Fin <$> qs) → length qs = Z.to_nat k →
  Forall (λ q, 0 ≤ q) qs → Qsum qs = 1 →
  yields_simplex (OWAOperator.family f false ml nm) k.
Proof.
  intros Hk Hf Hlen Hpos Hsum.
  destruct (family_Ok f ml nm k _ Hf) as [nm' Hop].
  eexists. split; [exact Hop|]. simpl.
  rewrite length_fmap, Hlen. repeat split.
  - lia.
  - by apply Forall_nonneg_Fin.
  - rewrite np_sum_Fin, Hsum. unfold fz. by rewrite Z2Qc_inj_1.
Qed.

Lemma weights_div (f : Z → Z) (c : Z) (l : list Z) :
  c ≠ 0%Z →
  (λ i, fdiv (fz (f i)) (fz c)) <$> l
  = Fin <$> ((λ i, Qc_of_Z (f i) / Qc_of_Z c) <$> l).
Proof.
  intros Hc. rewrite <-list_fmap_compose. apply list_fmap_ext.
  intros i x _. simpl. by apply fdiv_fz.
Qed.

Lemma Forall_div_nonneg (f : Z → Z) (c : Z) (l : list Z) :
  (0 < c)%Z → Forall (λ i, 0 ≤ f i)%Z l →
  Forall (λ q, 0 ≤ q) ((λ i, Qc_of_Z (f i) / Qc_of_Z c) <$> l).
Proof.
  intros Hc Hl. apply Forall_fmap. eapply Forall_impl; [exact Hl|].
  intros i Hi. simpl. apply Qcdiv_nonneg; [by apply Qc_of_Z_nonneg|by apply Qc_of_Z_pos].
Qed.

Lemma additive_simplex (k : Z) : (1 ≤ k)%Z → yields_simplex additive k.
Proof.
  intros Hk. destruct (Z_of_nat_complete k) as [n ->]; [lia|].
  set (c := (Z.of_nat n * (Z.of_nat n + 1))%Z).
  assert (0 < c)%Z as Hc by (unfold c; nia).
  apply (yields_simplex_intro _ _ _ _
           ((λ i, Qc_of_Z (2 * i) / Qc_of_Z c) <$> seqZ 1 (Z.of_nat n))).
  - lia.
  - unfold additive_weights, np_arange. f_equal.
    replace (Z.of_nat n + 1 - 1)%Z with (Z.of_nat n) by lia.
    apply (weights_div (Z.mul 2)). lia.
  - rewrite length_fmap, length_seqZ. done.
  - apply (Forall_div_nonneg (Z.mul 2)); [done|].
    apply Forall_seqZ. lia.
  - rewrite (Qsum_div_const (Z.mul 2)) by (apply Qc_of_Z_nonzero; lia).
    rewrite Zsum_double. apply Qcdiv_self, Qc_of_Z_nonzero. lia.
Qed.

Lemma pow2_gt_1 (k : Z) : (1 ≤ k)%Z → (1 < 2 ^ k)%Z.
Proof. intros Hk. apply Z.pow_gt_1; lia. Qed.

Lemma exponential_simplex (k : Z) : (1 ≤ k < 32)%Z → yields_simplex exponential k.
Proof.
  intros Hk. destruct (Z_of_nat_complete k) as [n ->]; [lia|].
  set (c := (2 ^ Z.of_nat n - 1)%Z).
  assert (0 < c)%Z as Hc by (pose proof (pow2_gt_1 (Z.of_nat n)); unfold c; lia).
  apply (yields_simplex_intro _ _ _ _
           (reverse ((λ j, Qc_of_Z (2 ^ j) / Qc_of_Z c) <$> seqZ 0 (Z.of_nat n)))).
  - lia.
  - unfold exponential_weights, np_arange, np_flip.
    rewrite decide_True by lia. f_equal.
    rewrite Z.sub_0_r, fmap_reverse. f_equal.
    apply (weights_div (Z.pow 2)). lia.
  - rewrite length_reverse, length_fmap, length_seqZ. done.
  - apply Forall_reverse, (Forall_div_nonneg (Z.pow 2)); [done|].
    apply Forall_seqZ. intros j Hj. apply Z.pow_nonneg. lia.
  - rewrite Qsum_reverse, (Qsum_div_const (Z.pow 2)) by (apply Qc_of_Z_nonzero; lia).
    rewrite Zsum_pow2. apply Qcdiv_self, Qc_of_Z_nonzero. lia.
Qed.
(** The fallback branch of [exponential]: the running products of 1/2. *)
Lemma cumprod_half n a :
  0 ≤ a →
  ∃ qs, cumprod_from (Fin a) (replicate n (Fin (1 / 2))) = Fin <$> qs ∧
        length qs = n ∧ Forall (λ q, 0 ≤ q) qs ∧
        Qsum qs = a * (1 - (1 / 2) ^ n).
Proof.
  revert a. induction n as [|n IH]; intros a Ha.
  - exists []. repeat split; [constructor|].
    change (Q2Qc 0 = a * (1 - 1)). ring.
  - assert (0 ≤ a * (1 / 2)) as Ha'.
    { apply Qcmult_nonneg_nonneg; [done|]. by compute. }
    destruct (IH _ Ha') as (qs & Hqs & Hlen & Hpos & Hsum).
    exists (a * (1 / 2) :: qs). repeat split.
    + simpl. by rewrite Hqs.
    + simpl. by rewrite Hlen.
    + by constructor.
    + rewrite Qsum_cons, Hsum. simpl. field. done.
Qed.

Lemma exponential_fallback (k : Z) :
  (32 ≤ k)%Z →
  ∃ op, exponential k = Ok op ∧ OWAOperator.k op = k ∧
        length (OWAOperator.w op) = Z.to_nat k ∧
        Forall nonneg (OWAOperator.w op) ∧
        np_sum (OWAOperator.w op) = Fin (1 - (1 / 2) ^ Z.to_nat k).
Proof.
  intros Hk.
  destruct (cumprod_half (Z.to_nat k) 1) as (qs & Hqs & Hlen & Hpos & Hsum); [done|].
  assert (exponential_weights k = Ok (Fin <$> qs)) as Hw.
  { unfold exponential_weights, np_full, np_cumprod, fz.
    rewrite decide_False, decide_False by lia. simpl.
    by rewrite Z2Qc_inj_1, Hqs. }
  destruct (family_Ok _ true (Some "exponential") k _ Hw) as [nm' Hop].
  eexists. split; [exact Hop|]. simpl.
  rewrite length_fmap, Hlen, np_sum_Fin, Hsum. repeat split.
  - lia.
  - by apply Forall_nonneg_Fin.
  - f_equal. ring.
Qed.

Lemma Qsum_pos l : l ≠ [] → Forall (λ q, 0 < q) l → 0 < Qsum l.
Proof.
  intros Hne Hl. induction Hl as [|q l Hq Hl IH]; [done|].
  rewrite Qsum_cons. destruct l as [|q' l].
  - change (Qsum []) with (Q2Qc 0). by rewrite Qcplus_0_r.
  - apply Qcplus_pos_pos; [done|]. by apply IH.
Qed.

(** The harmonic sum that normalises [invadd]. *)
Lemma harmonic_pos n :
  (0 < n)%nat →
  0 < Qsum ((λ i, Qc_of_Z 1 / Qc_of_Z i) <$> seqZ 1 (Z.of_nat n)).
Proof.
  intros Hn. apply Qsum_pos.
  - destruct n; [lia|]. rewrite seqZ_cons by lia. done.
  - apply Forall_fmap, Forall_seqZ. intros i Hi. simpl.
    rewrite Z2Qc_inj_1. unfold Qcdiv. rewrite Qcmult_1_l.
    apply Qcinv_pos, Qc_of_Z_pos. lia.
Qed.

Lemma Qsum_div_harmonic h (l : list Z) :
  h ≠ 0 → Forall (λ i, i ≠ 0%Z) l →
  Qsum ((λ i, Qc_of_Z 1 / (Qc_of_Z i * h)) <$> l)
  = Qsum ((λ i, Qc_of_Z 1 / Qc_of_Z i) <$> l) / h.
Proof.
  intros Hh Hl. induction Hl as [|i l Hi Hl IH].
  - change (Q2Qc 0 = Q2Qc 0 / h). by field.
  - rewrite !fmap_cons, !Qsum_cons, IH. field.
    split; [by apply Qc_of_Z_nonzero|done].
Qed.

Lemma invadd_simplex (k : Z) : (1 ≤ k)%Z → yields_simplex invadd k.
Proof.
  intros Hk. destruct (Z_of_nat_complete k) as [n ->]; [lia|].
  set (l := seqZ 1 (Z.of_nat n)).
  set (h := Qsum ((λ i, Qc_of_Z 1 / Qc_of_Z i) <$> l)).
  assert (0 < h) as Hh by (apply harmonic_pos; lia).
  assert (h ≠ 0) as Hh0 by (intros Heq; rewrite Heq in Hh; by apply Qclt_not_eq in Hh).
  assert (Forall (λ i, i ≠ 0%Z) l) as Hl by (apply Forall_seqZ; lia).
  apply (yields_simplex_intro _ _ _ _ ((λ i, Qc_of_Z 1 / (Qc_of_Z i * h)) <$> l)).
  - lia.
  - unfold invadd_weights, np_arange.
    replace (Z.of_nat n + 1 - 1)%Z with (Z.of_nat n) by lia. fold l.
    assert ((λ i, fdiv (fz 1) (fz i)) <$> l
            = Fin <$> ((λ i, Qc_of_Z 1 / Qc_of_Z i) <$> l)) as ->.
    { rewrite <-list_fmap_compose. apply Forall_fmap_ext.
      eapply Forall_impl; [exact Hl|]. intros i Hi. by apply (fdiv_fz 1 i). }
    rewrite np_sum_Fin. fold h. f_equal.
    rewrite <-list_fmap_compose. apply Forall_fmap_ext.
    eapply Forall_impl; [exact Hl|]. intros i Hi.
    apply (fdiv_Fin (Qc_of_Z 1) (Qc_of_Z i * h)). intros Heq. apply Qcmult_integral in Heq as [Heq|Heq]; [|done].
    by apply Qc_of_Z_nonzero in Heq.
  - unfold l. rewrite length_fmap, length_seqZ. done.
  - apply Forall_fmap, Forall_seqZ. intros i Hi. simpl.
    apply Qcdiv_nonneg; [by rewrite Z2Qc_inj_1|].
    apply Qcmult_pos_pos; [apply Qc_of_Z_pos; lia|done].
  - rewrite Qsum_div_harmonic by done. fold h. by apply Qcdiv_self.
Qed.

Lemma mean_simplex (k : Z) : (1 ≤ k)%Z → yields_simplex mean k.
Proof.
  intros Hk.
  assert (0 < Qc_of_Z k) as Hpos by (apply Qc_of_Z_pos; lia).
  apply (yields_simplex_intro _ _ _ _ (replicate (Z.to_nat k) (1 / Qc_of_Z k))).
  - lia.
  - unfold mean_weights, np_full. rewrite !decide_False by lia.
    by rewrite fmap_replicate.
  - by rewrite length_replicate.
  - apply Forall_replicate. apply Qcdiv_nonneg; [by compute|done].
  - rewrite Qsum_replicate, Z2Nat.id by lia. field.
    intros Heq. rewrite Heq in Hpos. by apply Qclt_not_eq in Hpos.
Qed.

Lemma trimmed_Ok (k : Z) :
  (1 ≤ k)%Z →
  ∃ nm, trimmed k = Ok (OWAOperator.__init__
                          (replicate (Z.to_nat (k - 1)) (fz 0) ++ [fz 1]) false nm).
Proof.
  intros Hk. apply family_Ok.
  unfold trimmed_weights, np_zeros, np_ones, np_full.
  by rewrite !decide_False by lia.
Qed.

Lemma trimmed_simplex (k : Z) : (1 ≤ k)%Z → yields_simplex trimmed k.
Proof.
  intros Hk.
  apply (yields_simplex_intro _ _ _ _
           (replicate (Z.to_nat (k - 1)) (Qc_of_Z 0) ++ [Qc_of_Z 1])).
  - lia.
  - unfold trimmed_weights, np_zeros, np_ones, np_full.
    rewrite !decide_False by lia. simpl. by rewrite fmap_app, fmap_replicate.
  - rewrite length_app, length_replicate. simpl. lia.
  - apply Forall_app. split; [apply Forall_replicate|repeat constructor];
      by compute.
  - rewrite Qsum_app, Qsum_replicate, Z2Qc_inj_0, Qsum_cons, Z2Qc_inj_1.
    change (Qsum []) with (Q2Qc 0). ring.
Qed.

End families.

(** ** Sorting *)

Section sorting.
Local Open Scope Qc_scope.

Global Instance fle_total : Total fle.
Proof.
  intros [a| | |] [b| | |]; simpl; auto.
  destruct (Qc_le_total a b); auto.
Qed.

Global Instance fle_trans : Transitive fle.
Proof.
  intros [a| | |] [b| | |] [c| | |]; simpl; try done.
  apply Qcle_trans.
Qed.

Global Instance fle_antisymm : AntiSymm (=) fle.
Proof.
  intros [a| | |] [b| | |]; simpl; try done.
  intros Hab Hba. f_equal. by apply Qcle_antisym.
Qed.

Global Instance fge_trans : Transitive fge.
Proof. intros x y z Hxy Hyz. unfold fge, flip in *. by etrans. Qed.

Global Instance fge_antisymm : AntiSymm (=) fge.
Proof. intros x y Hxy Hyx. unfold fge, flip in *. by apply (anti_symm fle). Qed.

Lemma np_sort_Sorted v : Sorted fle (np_sort v).
Proof. apply Sorted_merge_sort. apply _. Qed.

Lemma np_sort_Permutation v : np_sort v ≡ₚ v.
Proof. apply merge_sort_Permutation. Qed.

Lemma np_sort_length v : length (np_sort v) = length v.
Proof. by rewrite np_sort_Permutation. Qed.

(** Sorting a vector of finite values gives finite values. *)
Lemma np_sort_Fin (vs : list Qc) : ∃ qs, np_sort (Fin <$> vs) = Fin <$> qs ∧ length qs = length vs.
Proof.
  assert (Forall (λ x, ∃ q, x = Fin q) (np_sort (Fin <$> vs))) as Hall.
  { rewrite np_sort_Permutation. apply Forall_fmap, Forall_true. intros q. by exists q. }
  pose proof (np_sort_length (Fin <$> vs)) as Hlen. rewrite length_fmap in Hlen.
  revert Hall Hlen. generalize (np_sort (Fin <$> vs)). intros l Hall.
  revert vs. induction Hall as [|x l [q ->] _ IH]; intros vs Hlen.
  - exists []. by destruct vs.
  - destruct vs as [|v vs]; [done|]. simpl in Hlen.
    destruct (IH vs) as (qs & -> & Hqs); [lia|].
    exists (q :: qs). split; [done|]. simpl. lia.
Qed.

(** The first value of the descending order is an upper bound of the vector
    and one of its values. *)
Lemma kth_largest_1_max v x :
  kth_largest v 1 = Some x → x ∈ v ∧ Forall (λ y, fle y x) v.
Proof.
  unfold kth_largest. change (Z.to_nat (1 - 1)) with 0%nat.
  rewrite <-head_lookup, head_reverse. intros Hlast.
  rewrite <-(np_sort_Permutation v).
  pose proof (Sorted_StronglySorted fle _ (np_sort_Sorted v)) as Hs.
  revert Hlast Hs. generalize (np_sort v). intros s Hlast Hs.
  induction Hs as [|a s Hs IH Ha]; [done|].
  destruct s as [|b s].
  - injection Hlast as <-. split; [by left|].
    constructor; [|done]. by destruct (total fle a a).
  - rewrite last_cons_cons in Hlast. destruct (IH Hlast) as [Hin Hle].
    split; [by right|]. constructor; [|done].
    rewrite Forall_forall in Ha. by apply Ha.
Qed.

Lemma Sorted_fneg_Fin (qs : list Qc) :
  Sorted fle (Fin <$> qs) → Sorted fge (fneg <$> (Fin <$> qs)).
Proof.
  induction qs as [|q qs IH]; intros Hs; [constructor|].
  rewrite !fmap_cons in *. apply Sorted_inv in Hs as [Hs Hhd].
  constructor; [by apply IH|].
  destruct qs as [|q' qs]; constructor.
  apply HdRel_inv in Hhd. unfold fge, flip. simpl in *.
  by apply Qcopp_le_compat.
Qed.

(** Negation turns the ascending order of finite values into the descending one. *)
Lemma np_sort_fneg (vs : list Qc) :
  reverse (np_sort (fneg <$> (Fin <$> vs))) = fneg <$> np_sort (Fin <$> vs).
Proof.
  apply (Sorted_unique fge).
  - apply Sorted_reverse, np_sort_Sorted.
  - destruct (np_sort_Fin vs) as (qs & Hqs & _).
    pose proof (np_sort_Sorted (Fin <$> vs)) as Hs. rewrite Hqs in Hs |- *.
    by apply Sorted_fneg_Fin.
  - rewrite reverse_Permutation, !np_sort_Permutation. done.
Qed.
End sorting.

(** ** Applying an OWA operator *)

Section owa_apply.
Local Open Scope Qc_scope.

Lemma limit_and_sort_bottom v (n : nat) :
  limit_and_sort v (Z.of_nat n) = take n (np_sort v).
Proof.
  unfold limit_and_sort. destruct n as [|n].
  - by rewrite !decide_False by lia.
  - rewrite decide_True by lia. by rewrite Nat2Z.id.
Qed.

Lemma limit_and_sort_top v (n : nat) :
  limit_and_sort v (- Z.of_nat n) = take n (reverse (np_sort v)).
Proof.
  unfold limit_and_sort. destruct n as [|n].
  - by rewrite !decide_False by lia.
  - rewrite decide_False, decide_True by lia.
    by rewrite Z.opp_involutive, Nat2Z.id.
Qed.

Lemma np_binop_same_length f a b :
  length a = length b → np_binop f a b = Ok (zip_with f a b).
Proof. intros Hlen. unfold np_binop. by rewrite decide_True. Qed.

Lemma zip_with_fmul_Fin (a w : list Qc) :
  zip_with fmul (Fin <$> a) (Fin <$> w) = Fin <$> zip_with Qcmult a w.
Proof.
  revert w. induction a as [|x a IH]; intros [|y w]; [done..|].
  csimpl. by rewrite IH.
Qed.

(** The weighted sum of finite values with finite weights. *)
Lemma weighted_sum (a w : list Qc) :
  length a = length w →
  rbind (np_binop fmul (Fin <$> a) (Fin <$> w)) (λ vw, Ok (np_sum vw))
  = Ok (Fin (Qdot a w)).
Proof.
  intros Hlen. rewrite np_binop_same_length by (by rewrite !length_fmap).
  simpl. by rewrite zip_with_fmul_Fin, np_sum_Fin.
Qed.

Lemma Qdot_cons x a y w : Qdot (x :: a) (y :: w) = x * y + Qdot a w.
Proof. done. Qed.

Lemma Qdot_app a1 a2 w1 w2 :
  length a1 = length w1 →
  Qdot (a1 ++ a2) (w1 ++ w2) = Qdot a1 w1 + Qdot a2 w2.
Proof.
  intros Hlen. unfold Qdot. by rewrite zip_with_app, Qsum_app.
Qed.

Lemma Qdot_reverse a w :
  length a = length w → Qdot (reverse a) (reverse w) = Qdot a w.
Proof.
  revert w. induction a as [|x a IH]; intros [|y w] Hlen; try done.
  simpl in Hlen. rewrite !reverse_cons, Qdot_app by (rewrite !length_reverse; lia).
  rewrite IH, !Qdot_cons by lia. change (Qdot [] []) with (Q2Qc 0). ring.
Qed.

Lemma Qdot_opp a w : Qdot (Qcopp <$> a) w = - Qdot a w.
Proof.
  revert w. induction a as [|x a IH]; intros [|y w];
    try (change (Q2Qc 0 = - Q2Qc 0); ring).
  rewrite fmap_cons, !Qdot_cons, IH. ring.
Qed.

(** A weight vector with all its weight on the first position. *)
Lemma Qdot_onehot q (a : list Qc) m :
  Qdot (q :: a) (Qc_of_Z 1 :: replicate m (Qc_of_Z 0)) = q.
Proof.
  rewrite Qdot_cons, Z2Qc_inj_1, Z2Qc_inj_0.
  assert (Qdot a (replicate m 0) = 0) as ->; [|ring].
  revert m. induction a as [|x a IH]; intros [|m]; try done.
  change (replicate (S m) (Q2Qc 0)) with (Q2Qc 0 :: replicate m (Q2Qc 0)).
  rewrite Qdot_cons, IH. ring.
Qed.
End owa_apply.

(** ** The trimmed operator and the duality of soft minimum and maximum *)

Section owa_claims.
Local Open Scope Qc_scope.

Lemma trimmed2_Ok : trimmed 2 = Ok trimmed2.
Proof. reflexivity. Qed.

Lemma trimmed2_soft_max : OWAOperator.soft_max trimmed2 [fz 1; fz 2] = Ok (fz 2).
Proof. by_evaluation. Qed.

Lemma second_largest : kth_largest [fz 1; fz 2] 2 = Some (fz 1).
Proof. by_evaluation. Qed.

(** On the code the statement of claim C7 fails: for k = 2 and v = [1, 2]
    the soft maximum of the trimmed operator is 2, the largest value, and
    not the second largest value 1. *)
Lemma trimmed_kth_largest_counterexample : ¬ trimmed_as_stated 2 [fz 1; fz 2].
Proof.
  intros Hclaim.
  destruct (Hclaim ltac:(simpl; lia) trimmed2 trimmed2_Ok) as (x & y & Hx & Hmax & _).
  rewrite second_largest in Hx. injection Hx as <-.
  rewrite trimmed2_soft_max in Hmax. discriminate Hmax.
Qed.

(** The soft maximum of [trimmed k] on finite values: the reversed weight
    vector has its weight on the first of the top values. *)
Lemma trimmed_weights_flip (m : nat) :
  np_flip (replicate m (fz 0) ++ [fz 1]) = Fin <$> (Qc_of_Z 1 :: replicate m (Qc_of_Z 0)).
Proof.
  unfold np_flip. rewrite reverse_app, reverse_replicate.
  by rewrite fmap_cons, fmap_replicate.
Qed.

(** What the trimmed operator of length k selects from finite values: as
    soft maximum the first of the descending order, for every k, and as
    soft minimum the k-th of the ascending order. *)
Lemma trimmed_apply (k : Z) (vs : list Qc) :
  (1 ≤ k ≤ Z.of_nat (length vs))%Z →
  ∃ op x y,
    trimmed k = Ok op ∧
    kth_largest (Fin <$> vs) 1 = Some x ∧
    OWAOperator.soft_max op (Fin <$> vs) = Ok x ∧
    kth_smallest (Fin <$> vs) k = Some y ∧
    OWAOperator.soft_min op (Fin <$> vs) = Ok y.
Proof.
  intros Hk. destruct (trimmed_Ok k) as [nm Hop]; [lia|].
  set (m := Z.to_nat (k - 1)) in *.
  destruct (np_sort_Fin vs) as (qs & Hqs & Hlen).
  assert (m < length qs)%nat as Hm by (unfold m; lia).
  destruct (lookup_lt_is_Some_2 qs m Hm) as [y Hy].
  destruct (lookup_lt_is_Some_2 (reverse qs) 0) as [x Hx];
    [rewrite length_reverse; lia|].
  eexists _, (Fin x), (Fin y). split; [exact Hop|].
  unfold kth_largest, kth_smallest, OWAOperator.soft_max, OWAOperator.soft_min,
    OWAOperator._apply. simpl OWAOperator.max_like. simpl OWAOperator.w.
  simpl OWAOperator.k. cbv [andb].
  rewrite length_app, length_replicate. simpl length.
  change (Z.to_nat (1 - 1)) with 0%nat. fold m.
  rewrite limit_and_sort_bottom, limit_and_sort_top, Hqs, trimmed_weights_flip.
  rewrite <-!fmap_reverse, <-!fmap_take. unfold np_flip. rewrite <-!fmap_reverse.
  rewrite !list_lookup_fmap, Hx, Hy. repeat split.
  - destruct (reverse qs) as [|x' rqs] eqn:Hr; [done|]. injection Hx as ->.
    replace (m + 1)%nat with (S m) by lia. rewrite firstn_cons.
    rewrite weighted_sum, Qdot_onehot; [done|].
    simpl. rewrite length_take, length_replicate.
    apply (f_equal length) in Hr. rewrite length_reverse in Hr. simpl in Hr. lia.
  - assert (reverse (take (m + 1) qs) = y :: reverse (take m qs)) as ->.
    { replace (m + 1)%nat with (S m) by lia.
      rewrite (take_S_r _ _ y) by done. by rewrite reverse_snoc. }
    rewrite weighted_sum, Qdot_onehot; [done|].
    simpl. rewrite length_reverse, length_take, length_replicate. lia.
Qed.

(** Claim C7 on the code: for k = 2 and v = [1, 2, 3] the soft maximum of
    [trimmed(2)] is 3, the largest value, where the claim has the second
    largest value, 2; the soft minimum is the second smallest value, 2,
    as the claim has it.  With the same weights and [max_like=True] both
    are the values of the claim. *)
Theorem trimmed_soft_max_misses_kth_largest :
  trimmed 2 = Ok trimmed2 ∧
  kth_largest [fz 1; fz 2; fz 3] 2 = Some (fz 2) ∧
  kth_smallest [fz 1; fz 2; fz 3] 2 = Some (fz 2) ∧
  OWAOperator.soft_max trimmed2 [fz 1; fz 2; fz 3] = Ok (fz 3) ∧
  OWAOperator.soft_min trimmed2 [fz 1; fz 2; fz 3] = Ok (fz 2) ∧
  OWAOperator.soft_max trimmed2_max_like [fz 1; fz 2; fz 3] = Ok (fz 2) ∧
  OWAOperator.soft_min trimmed2_max_like [fz 1; fz 2; fz 3] = Ok (fz 2).
Proof. split; [reflexivity|]. repeat split; by_evaluation. Qed.

(** Claim C2, as stated, fails: with the single weight 1 the soft minimum
    of [0, 1] is 0 while the soft maximum of the dual operator on the same
    input is 1. *)
Lemma duality_counterexample : ¬ duality_as_stated [fz 1] true [fz 0; fz 1].
Proof.
  intros Hclaim.
  assert (simplex [fz 1]) as Hw.
  { split; [repeat constructor; by compute|by_evaluation]. }
  specialize (Hclaim Hw ltac:(simpl; lia)). cbv zeta in Hclaim.
  revert Hclaim. by_evaluation.
Qed.

(** Claim C2 (amended): for every weight vector w of k finite weights used
    as max-like weights, and every vector v of at least k finite values,
    the soft minimum of v is the negated soft maximum, under the dual
    operator (reversed weights, flipped flag), of the negated vector. *)
Theorem soft_min_dual_neg (ws vs : list Qc) (nm : option string) :
  (length ws ≤ length vs)%nat →
  let op := OWAOperator.__init__ (Fin <$> ws) true nm in
  ∃ q, OWAOperator.soft_min op (Fin <$> vs) = Ok (Fin q) ∧
       OWAOperator.soft_max (dual op) (fneg <$> (Fin <$> vs)) = Ok (Fin (- q)).
Proof.
  intros Hlen op. set (n := length ws).
  destruct (np_sort_Fin vs) as (qs & Hqs & Hqlen).
  exists (Qdot (take n qs) ws).
  unfold OWAOperator.soft_max, OWAOperator.soft_min, OWAOperator._apply, dual, op.
  simpl OWAOperator.max_like. simpl OWAOperator.w. simpl OWAOperator.k.
  cbv [andb negb]. rewrite length_reverse, length_fmap. fold n.
  unfold np_flip. rewrite reverse_involutive.
  rewrite limit_and_sort_bottom, limit_and_sort_top, np_sort_fneg, Hqs.
  split.
  - rewrite <-fmap_take, <-!fmap_reverse.
    rewrite weighted_sum by (rewrite !length_reverse, length_take; lia).
    rewrite Qdot_reverse by (rewrite length_take; lia). done.
  - rewrite <-list_fmap_compose, <-fmap_take.
    rewrite (list_fmap_compose Qcopp Fin).
    rewrite weighted_sum by (rewrite length_fmap, length_take; lia).
    by rewrite Qdot_opp.
Qed.

Lemma soft_min_dual_neg_witness :
  let op := OWAOperator.__init__ (Fin <$> [(1 / 2)%Qc; (1 / 2)%Qc]) true None in
  ∃ q, OWAOperator.soft_min op (Fin <$> [Qc_of_Z 3; Qc_of_Z 1; Qc_of_Z 2]) = Ok (Fin q) ∧
       OWAOperator.soft_max (dual op)
         (fneg <$> (Fin <$> [Qc_of_Z 3; Qc_of_Z 1; Qc_of_Z 2])) = Ok (Fin (- q)).
Proof.
  apply (soft_min_dual_neg [(1 / 2)%Qc; (1 / 2)%Qc] [Qc_of_Z 3; Qc_of_Z 1; Qc_of_Z 2] None).
  simpl. lia.
Defined.
End owa_claims.

(** ** The predefined families, together *)

Section family_claims.
Local Open Scope Qc_scope.

Lemma strict_simplex : simplex (OWAOperator.w strict).
Proof. split; [repeat constructor; by compute|by_evaluation]. Qed.

(** Claim C8, as stated, fails: for k = 32 the exponential family takes
    its fallback branch, whose weights 1/2, 1/4, ..., 1/2^32 sum to
    1 - 1/2^32 and not to 1. *)
Lemma exponential_fallback_counterexample : ¬ families_as_stated 32.
Proof.
  intros Hclaim.
  destruct (Hclaim ltac:(lia)) as (_ & _ & (op & Hop & _ & _ & _ & Hsum) & _).
  destruct (exponential_fallback 32) as (op' & Hop' & _ & _ & _ & Hsum'); [lia|].
  rewrite Hop in Hop'. injection Hop' as <-.
  rewrite Hsum in Hsum'. revert Hsum'. by_evaluation.
Qed.

(** Claim C8 (amended): [strict] is the fixed vector [1]; for every
    k >= 1 the families additive, invadd, mean and trimmed, and the
    exponential family for k < 32, produce a vector of k non-negative
    weights whose exact sum is 1; for k >= 32 the exponential family
    produces k non-negative weights whose exact sum is 1 - (1/2)^k. *)
Theorem families_simplex (k : Z) :
  (1 ≤ k)%Z →
  OWAOperator.w strict = [fz 1] ∧ simplex (OWAOperator.w strict) ∧
  yields_simplex additive k ∧ yields_simplex invadd k ∧
  yields_simplex mean k ∧ yields_simplex trimmed k ∧
  ((k < 32)%Z → yields_simplex exponential k) ∧
  ((32 ≤ k)%Z →
   ∃ op, exponential k = Ok op ∧ OWAOperator.k op = k ∧
         length (OWAOperator.w op) = Z.to_nat k ∧
         Forall nonneg (OWAOperator.w op) ∧
         np_sum (OWAOperator.w op) = Fin (1 - (1 / 2) ^ Z.to_nat k)).
Proof.
  intros Hk. split; [done|]. split; [apply strict_simplex|].
  split; [by apply additive_simplex|]. split; [by apply invadd_simplex|].
  split; [by apply mean_simplex|]. split; [by apply trimmed_simplex|].
  split.
  - intros Hlt. by apply exponential_simplex.
  - apply exponential_fallback.
Qed.

Lemma families_simplex_witness :
  OWAOperator.w strict = [fz 1] ∧ simplex (OWAOperator.w strict) ∧
  yields_simplex additive 32 ∧ yields_simplex invadd 32 ∧
  yields_simplex mean 32 ∧ yields_simplex trimmed 32 ∧
  ((32 < 32)%Z → yields_simplex exponential 32) ∧
  ((32 ≤ 32)%Z →
   ∃ op, exponential 32 = Ok op ∧ OWAOperator.k op = 32%Z ∧
         length (OWAOperator.w op) = Z.to_nat 32 ∧
         Forall nonneg (OWAOperator.w op) ∧
         np_sum (OWAOperator.w op) = Fin (1 - (1 / 2) ^ Z.to_nat 32)).
Proof. apply (families_simplex 32). lia. Defined.
End family_claims.

(** ** Running methods *)

Section running.

Lemma run_bind {A B} (m : M A) (f : A → M B) h :
  (m ≫= f) h = match m h with
               | (Ok a, h') => f a h'
               | (Raise e, h') => (Raise e, h')
               end.
Proof. done. Qed.

Lemma run_lift {A B} (r : result A) (f : A → M B) h :
  (lift r ≫= f) h = match r with Ok a => f a h | Raise e => (Raise e, h) end.
Proof. rewrite run_bind. unfold lift. by destruct r. Qed.

Lemma run_load {B} l (f : ndarray1 → M B) h a :
  h !! l = Some a → (load l ≫= f) h = f a h.
Proof. intros Hl. rewrite run_bind. unfold load. by rewrite Hl. Qed.

Lemma run_load_None {B} l (f : ndarray1 → M B) h :
  h !! l = None → (load l ≫= f) h = (Raise ValueError, h).
Proof. intros Hl. rewrite run_bind. unfold load. by rewrite Hl. Qed.

Lemma run_alloc {B} a (f : loc → M B) h :
  (alloc a ≫= f) h = f (length h) (h ++ [a]).
Proof. done. Qed.

(** Updating the object that was allocated last. *)
Lemma run_modify_last {B} g (f : () → M B) h a :
  (modify (length h) g ≫= f) (h ++ [a]) = f () (h ++ [g a]).
Proof.
  rewrite run_bind. unfold modify.
  rewrite lookup_app_r, Nat.sub_diag by lia. simpl.
  rewrite insert_app_r_alt, Nat.sub_diag by lia. done.
Qed.

Lemma lookup_last (h : heap) a : (h ++ [a]) !! length h = Some a.
Proof. by rewrite lookup_app_r, Nat.sub_diag by lia. Qed.
End running.

(** ** NND *)

Section nnd.

(** A query of NND: the error of the index, or else the TypeError of the
    call [self.owa.soft_max(proximities, self.k)]; the heap is untouched. *)
Lemma NND_query_run (d : NND.Description) (X : ndarray2) (h : heap) :
  query d X h =
    (match index_query (NND.d_index d) X (NND.d_k d) with
     | Ok _ => Raise TypeError
     | Raise e => Raise e
     end, h).
Proof.
  unfold query. rewrite run_lift. simpl.
  destruct (index_query (NND.d_index d) X (NND.d_k d)) as [[qn qd]|e]; [|done].
  unfold NND._query. by rewrite run_lift.
Qed.

(** Claim C10: for every NND description whose operator is an
    [OWAOperator] of owa_operators.py, every query fails: the error of the
    index if the index refuses the query, and otherwise the TypeError of
    calling [soft_max(self, v)] with the two arguments [proximities] and
    [self.k]; the heap is left as it was. *)
Theorem NND_query_raises (d : NND.Description) (X : ndarray2) (h : heap) :
  ∃ e, query d X h = (Raise e, h) ∧
       (is_Ok (index_query (NND.d_index d) X (NND.d_k d)) → e = TypeError).
Proof.
  rewrite NND_query_run.
  destruct (index_query (NND.d_index d) X (NND.d_k d)) as [[qn qd]|e].
  - by exists TypeError.
  - exists e. split; [done|]. intros [a Ha]. discriminate.
Qed.

Lemma NND_query_raises_witness :
  ∃ e, query (nnd_description 1 refs4) [[fz 0]; [fz 10]] [] = (Raise e, []) ∧
       (is_Ok (index_query (NND.d_index (nnd_description 1 refs4)) [[fz 0]; [fz 10]]
                 (NND.d_k (nnd_description 1 refs4))) → e = TypeError).
Proof. apply NND_query_raises. Defined.

(** Claim C1: NND with k = 1, the [trimmed] operator of the class that
    descriptors.py imports and the default proximity, fitted on the
    reference points 0, 1, 2, 3: the query of the points 0 and 10 returns
    the scores 1 and 1/8 (the point 0 is a reference point; the nearest
    reference point of 10 is 3, at distance 7). *)
Theorem NND_scenario_scores :
  NNDImported.__init__ (nnd_imported_descriptor 1) (exact_index_1d refs4) []
    = (Ok (nnd_imported_description 1 refs4), []) ∧
  index_query (exact_index_1d refs4) [[fz 0]; [fz 10]] 1
    = Ok ([[0]; [3]], [[fz 0]; [fz 7]]) ∧
  query (nnd_imported_description 1 refs4) [[fz 0]; [fz 10]] []
    = (Ok [fz 1; Fin (1 / Qc_of_Z 8)%Qc], []).
Proof. split; [reflexivity|]. split; by_evaluation. Qed.

(** Claim C6, as stated, fails for NND: fitting with k = 0 on four
    reference points succeeds. *)
Lemma nnd_fit_invalid_k_counterexample :
  ¬ nnd_fit_rejects_as_stated (nnd_descriptor 0) (exact_index_1d refs4).
Proof.
  intros Hclaim. destruct Hclaim as [e He]; [left; simpl; lia|]. discriminate He.
Qed.
End nnd.

(** ** LNND *)

Section lnnd.
Local Open Scope Qc_scope.

(** What [_query] computes from the fitted self-distances; the heap is
    not changed. *)
Lemma LNND_query_run (d : LNND.Description) qn qd h D :
  h !! LNND.d_distances d = Some D →
  LNND._query d qn qd h =
    (rbind (np_col qd (LNND.d_k d - 1)) (λ q_col,
     rbind (np_col qn (LNND.d_k d - 1)) (λ n_col,
     rbind (np_take1 D n_col) (λ n_distances,
     rbind (div_or q_col n_distances (fz 1)) (λ l_distances,
     Ok (shifted_reciprocal <$> (nan_to_num_keep_nan <$> l_distances)))))), h).
Proof.
  intros HD. unfold LNND._query. rewrite run_lift.
  destruct (np_col qd _) as [q_col|e]; simpl; [|done]. rewrite run_lift.
  destruct (np_col qn _) as [n_col|e]; simpl; [|done].
  rewrite (run_load _ _ _ D HD), run_lift.
  destruct (np_take1 D n_col) as [nd|e]; simpl; [|done]. rewrite run_lift.
  by destruct (div_or q_col nd (fz 1)) as [l|e].
Qed.

(** The score of one query point. *)
Lemma LNND_score_at (d : LNND.Description) X h qn qd scores h' i r dp sd :
  index_query (LNND.d_index d) X (LNND.d_k d) = Ok (qn, qd) →
  length qn = length qd →
  query d X h = (Ok scores, h') →
  kth_neighbour qn qd (LNND.d_k d) i r dp →
  LNND_self_distance d h r sd →
  scores !! i = Some (shifted_reciprocal (nan_to_num_keep_nan (div_or1 (fz 1) dp sd))).
Proof.
  intros Hidx Hshape Hq (nrow & drow & Hn & Hd & Hr & Hdp) (D & HD & Hsd).
  unfold query in Hq. rewrite run_lift in Hq. simpl in Hq. rewrite Hidx in Hq.
  rewrite (LNND_query_run d qn qd h D HD) in Hq. injection Hq as Hq _.
  apply rbind_Ok in Hq as (q_col & Hqc & Hq).
  apply rbind_Ok in Hq as (n_col & Hnc & Hq).
  apply rbind_Ok in Hq as (nd & Hnd & Hq).
  apply rbind_Ok in Hq as (l & Hl & [= <-]).
  destruct (rmapM_lookup _ _ _ _ _ Hqc Hd) as (dp' & Hdp' & Hqi).
  destruct (rmapM_lookup _ _ _ _ _ Hnc Hn) as (r' & Hr' & Hni).
  rewrite Hdp in Hdp'. injection Hdp' as <-. rewrite Hr in Hr'. injection Hr' as <-.
  destruct (rmapM_lookup _ _ _ _ _ Hnd Hni) as (sd' & Hsd' & Hndi).
  rewrite Hsd in Hsd'. injection Hsd' as <-.
  apply rmapM_length in Hqc, Hnc, Hnd.
  unfold div_or in Hl. rewrite np_binop_same_length in Hl by congruence.
  injection Hl as <-.
  rewrite !list_lookup_fmap, lookup_zip_with, Hqi. simpl. by rewrite Hndi.
Qed.

(** The scenario with a duplicated reference point. *)
Lemma lnnd_dup_fit :
  ∃ h, LNND.__init__ {| LNND.k := KInt 1 |} (exact_index_1d refs_dup) []
       = (Ok (lnnd_description refs_dup), h) ∧ h = lnnd_heap_dup.
Proof. eexists. split; [reflexivity|by_evaluation]. Qed.

Lemma lnnd_dup_index_zero :
  index_query (exact_index_1d refs_dup) [[fz 0]] 1 = Ok ([[0%Z]], [[fz 0]]).
Proof. by_evaluation. Qed.


Lemma lnnd_dup_neighbour (x : npfloat) : kth_neighbour [[0%Z]] [[x]] 1 0 0 x.
Proof. by exists [0%Z], [x]. Qed.

Lemma lnnd_dup_self_distance :
  LNND_self_distance (lnnd_description refs_dup) lnnd_heap_dup 0 (fz 0).
Proof. by exists [fz 0; fz 0]. Qed.

Lemma lnnd_dup_query :
  query (lnnd_description refs_dup) [[fz 0]] lnnd_heap_dup = (Ok [half], lnnd_heap_dup) ∧
  query (lnnd_description refs_dup) [[fz 1]] lnnd_heap_dup
    = (Ok [Fin (1 / (1 + float_max))], lnnd_heap_dup).
Proof. split; by_evaluation. Qed.

Lemma div_or1_zero_zero fallback : div_or1 fallback (fz 0) (fz 0) = fallback.
Proof. unfold div_or1. by rewrite decide_True. Qed.


Lemma shifted_reciprocal_one : shifted_reciprocal (fz 1) = half.
Proof. by_evaluation. Qed.


(** Claim C3, as stated, fails: with a duplicated reference point at 0
    and the query point 0, both distances are 0 and the score is 1/2. *)
Lemma LNND_zero_zero_counterexample :
  ¬ LNND_zero_zero_as_stated (lnnd_description refs_dup) [[fz 0]] lnnd_heap_dup 0.
Proof.
  intros Hclaim.
  specialize (Hclaim _ _ _ _ _ lnnd_dup_index_zero eq_refl
                (proj1 lnnd_dup_query) (lnnd_dup_neighbour _) lnnd_dup_self_distance).
  revert Hclaim. by_evaluation.
Qed.

(** Claim C3 (amended): for every query point whose k-th neighbour
    distance is 0 and whose k-th nearest reference point has the
    self-distance 0, the localised distance ratio is 1 (the 0/0 = 1
    convention) and the LNND score is 1/(1+1) = 1/2. *)
Theorem LNND_zero_zero_half (d : LNND.Description) X h qn qd scores h' i r :
  index_query (LNND.d_index d) X (LNND.d_k d) = Ok (qn, qd) →
  length qn = length qd →
  query d X h = (Ok scores, h') →
  kth_neighbour qn qd (LNND.d_k d) i r (fz 0) →
  LNND_self_distance d h r (fz 0) →
  div_or1 (fz 1) (fz 0) (fz 0) = fz 1 ∧ scores !! i = Some half.
Proof.
  intros Hidx Hshape Hq Hn Hsd. split; [apply div_or1_zero_zero|].
  rewrite (LNND_score_at _ _ _ _ _ _ _ _ _ _ _ Hidx Hshape Hq Hn Hsd).
  by rewrite div_or1_zero_zero, <-shifted_reciprocal_one.
Qed.

Lemma LNND_zero_zero_half_witness :
  div_or1 (fz 1) (fz 0) (fz 0) = fz 1 ∧ [half] !! 0%nat = Some half.
Proof.
  apply (LNND_zero_zero_half (lnnd_description refs_dup) [[fz 0]] lnnd_heap_dup
           [[0%Z]] [[fz 0]] [half] lnnd_heap_dup 0 0).
  - apply lnnd_dup_index_zero.
  - reflexivity.
  - apply lnnd_dup_query.
  - apply lnnd_dup_neighbour.
  - apply lnnd_dup_self_distance.
Defined.




End lnnd.

(** ** LOF *)

Section lof.
Local Open Scope Qc_scope.

(** [_get_lrd] reads the self-distances and leaves the heap as it is. *)
Lemma LOF_get_lrd_run {B} (dd : loc) qn qd (f : ndarray1 → M B) h D :
  h !! dd = Some D →
  (LOF._get_lrd dd qn qd ≫= f) h =
    match rbind (np_take2 D qn) (λ floor,
          rbind (np_binop2 fmaximum qd floor) (λ r_distances,
          Ok ((λ row, fdiv (fz 1) (np_mean row)) <$> r_distances))) with
    | Ok lrd => f lrd h
    | Raise e => (Raise e, h)
    end.
Proof.
  intros HD. rewrite run_bind. unfold LOF._get_lrd.
  rewrite (run_load _ _ _ D HD), run_lift.
  destruct (np_take2 D qn) as [floor|e]; simpl; [|done]. rewrite run_lift.
  by destruct (np_binop2 fmaximum qd floor) as [r|e].
Qed.

(** [_query] from any heap that holds the fitted arrays [D] and [L]: the
    result depends on the arrays only, and the one object the run adds
    to the heap is the array [lof] it updates in place. *)
Lemma LOF_query_run (d : LOF.Description) qn qd D L :
  ∃ R : result ndarray1, ∀ h,
    h !! LOF.d_distances d = Some D → h !! LOF.d_lrd d = Some L →
    LOF._query d qn qd h =
      match R with
      | Ok ratio => (Ok (shifted_reciprocal <$> (nan_to_one <$> ratio)),
                     h ++ [nan_to_one <$> ratio])
      | Raise e => (Raise e, h)
      end.
Proof.
  destruct (rbind (np_take2 D qn) (λ floor,
            rbind (np_binop2 fmaximum qd floor) (λ r_distances,
            Ok ((λ row, fdiv (fz 1) (np_mean row)) <$> r_distances))))
    as [q_lrd|e] eqn:Hlrd.
  - destruct (np_take2 L qn) as [n_lrd|e] eqn:Hn.
    + exists (np_binop fdiv (np_mean <$> n_lrd) q_lrd). intros h HD HL.
      unfold LOF._query. rewrite (LOF_get_lrd_run _ _ _ _ _ D HD), Hlrd.
      rewrite (run_load _ _ _ L HL), run_lift, Hn, run_lift.
      destruct (np_binop fdiv (np_mean <$> n_lrd) q_lrd) as [ratio|e]; [|done].
      rewrite run_alloc. unfold mbind at 1.
      change (M_bind _ _ ?f ?m) with (m ≫= f).
      rewrite run_modify_last, (run_load _ _ _ _ (lookup_last _ _)). done.
    + exists (Raise e). intros h HD HL.
      unfold LOF._query. rewrite (LOF_get_lrd_run _ _ _ _ _ D HD), Hlrd.
      by rewrite (run_load _ _ _ L HL), run_lift, Hn.
  - exists (Raise e). intros h HD HL.
    unfold LOF._query. by rewrite (LOF_get_lrd_run _ _ _ _ _ D HD), Hlrd.
Qed.




Lemma lof4_fit :
  ∃ h, LOF.__init__ {| LOF.k := KInt 1 |} (exact_index_1d refs4) []
       = (Ok (lof_description refs4), h) ∧ h = lof_heap4.
Proof. eexists. split; [reflexivity|by_evaluation]. Qed.





End lof.

(** ** Fit *)

Section fit.

Lemma LNND_init_run (descriptor : LNND.Descriptor) (index : Index) (h0 : heap) :
  let k := resolve_k (LNND.k descriptor) index in
  LNND.__init__ descriptor index h0 =
    match index_query_self index k with
    | Ok (_, distances) =>
        match np_col distances (k - 1) with
        | Ok col => (Ok {| LNND.d_k := k; LNND.d_index := index;
                           LNND.d_distances := length h0 |}, h0 ++ [col])
        | Raise e => (Raise e, h0)
        end
    | Raise e => (Raise e, h0)
    end.
Proof.
  intros k. unfold LNND.__init__. fold k. rewrite run_lift.
  destruct (index_query_self index k) as [[ns ds]|e]; [|done].
  rewrite run_lift. by destruct (np_col ds (k - 1)).
Qed.

Lemma LOF_init_run (model : LOF.Descriptor) (index : Index) (h0 : heap) :
  let k := resolve_k (LOF.k model) index in
  LOF.__init__ model index h0 =
    match index_query_self index k with
    | Ok (neighbours, distances) =>
        match np_col distances (k - 1) with
        | Ok col =>
            match rbind (np_take2 col neighbours) (λ floor,
                  rbind (np_binop2 fmaximum distances floor) (λ r_distances,
                  Ok ((λ row, fdiv (fz 1) (np_mean row)) <$> r_distances))) with
            | Ok lrd => (Ok {| LOF.d_k := k; LOF.d_index := index;
                               LOF.d_distances := length h0;
                               LOF.d_lrd := S (length h0) |},
                         h0 ++ [col; lrd])
            | Raise e => (Raise e, h0 ++ [col])
            end
        | Raise e => (Raise e, h0)
        end
    | Raise e => (Raise e, h0)
    end.
Proof.
  intros k. unfold LOF.__init__. fold k. rewrite run_lift.
  destruct (index_query_self index k) as [[ns ds]|e]; [|done].
  rewrite run_lift. destruct (np_col ds (k - 1)) as [col|e]; [|done].
  rewrite run_alloc, (LOF_get_lrd_run _ _ _ _ _ col (lookup_last _ _)).
  destruct (rbind _ _) as [lrd|e]; [|done].
  rewrite run_alloc, length_app, <-app_assoc. simpl.
  by rewrite Nat.add_1_r.
Qed.

(** Fit leaves the description's arrays in the heap, where they stay as
    long as the heap only grows. *)
Lemma LNND_init_fitted descriptor index h0 d h h1 :
  LNND.__init__ descriptor index h0 = (Ok d, h) → h `prefix_of` h1 →
  LNND_fitted d h1.
Proof.
  rewrite LNND_init_run. intros Hinit [ext ->].
  destruct (index_query_self _ _) as [[ns ds]|e]; [|done].
  destruct (np_col _ _) as [col|e]; [|done]. injection Hinit as <- <-.
  exists col. simpl. rewrite <-app_assoc. by apply list_lookup_middle.
Qed.

Lemma LOF_init_fitted model index h0 d h h1 :
  LOF.__init__ model index h0 = (Ok d, h) → h `prefix_of` h1 →
  LOF_fitted d h1.
Proof.
  rewrite LOF_init_run. intros Hinit [ext ->].
  destruct (index_query_self _ _) as [[ns ds]|e]; [|done].
  destruct (np_col _ _) as [col|e]; [|done].
  destruct (rbind _ _) as [lrd|e]; [|done]. injection Hinit as <- <-.
  split; simpl.
  - exists col. rewrite <-app_assoc. by apply list_lookup_middle.
  - exists lrd. rewrite <-app_assoc.
    change (h0 ++ [col; lrd] ++ ext) with (h0 ++ [col] ++ lrd :: ext).
    rewrite app_assoc. apply list_lookup_middle.
    rewrite length_app. simpl. lia.
Qed.

(** Claim C6, amended: fit does not validate [k].  With a [k] that the
    index refuses in [query_self], NND's fit still succeeds and stores
    the resolved [k] as it is, while LNND's and LOF's fit fail with the
    error of the index, before any query; for NND the refusal of the
    index surfaces at query time.  No fit changes [k]. *)
Theorem fit_and_invalid_k (k : kparam) (proximity : npfloat → npfloat)
    (owa : OWAOperator.t) (index : Index) (h : heap) :
  (∃ d, NND.__init__ {| NND.k := k; NND.proximity := proximity; NND.owa := owa |}
          index h = (Ok d, h) ∧
        NND.d_k d = resolve_k k index ∧
        ∀ X e, index_query index X (resolve_k k index) = Raise e →
               query d X h = (Raise e, h)) ∧
  (∀ e, index_query_self index (resolve_k k index) = Raise e →
        LNND.__init__ {| LNND.k := k |} index h = (Raise e, h) ∧
        LOF.__init__ {| LOF.k := k |} index h = (Raise e, h)) ∧
  (∀ d h', LNND.__init__ {| LNND.k := k |} index h = (Ok d, h') →
           LNND.d_k d = resolve_k k index) ∧
  (∀ d h', LOF.__init__ {| LOF.k := k |} index h = (Ok d, h') →
           LOF.d_k d = resolve_k k index).
Proof.
  split; [|split; [|split]].
  - eexists. split; [reflexivity|]. split; [done|].
    intros X e HX. rewrite NND_query_run. simpl. by rewrite HX.
  - intros e Hself. rewrite LNND_init_run, LOF_init_run. simpl. by rewrite Hself.
  - intros d h'. rewrite LNND_init_run. simpl.
    destruct (index_query_self _ _) as [[ns ds]|e]; [|done].
    destruct (np_col _ _) as [col|e]; [|done]. by intros [= <- _].
  - intros d h'. rewrite LOF_init_run. simpl.
    destruct (index_query_self _ _) as [[ns ds]|e]; [|done].
    destruct (np_col _ _) as [col|e]; [|done].
    destruct (rbind _ _) as [lrd|e]; [|done]. by intros [= <- _].
Qed.

Lemma fit_and_invalid_k_witness :
  LNND.__init__ {| LNND.k := KInt 0 |} (exact_index_1d refs4) [] = (Raise ValueError, []) ∧
  LOF.__init__ {| LOF.k := KInt 0 |} (exact_index_1d refs4) [] = (Raise ValueError, []).
Proof.
  apply (fit_and_invalid_k (KInt 0) shifted_reciprocal trimmed1
           (exact_index_1d refs4) []).
  reflexivity.
Defined.
End fit.

(** ** Querying twice *)

Section idempotence.

Lemma NND_query_twice (d : NND.Description) h : query_twice_same d h.
Proof.
  intros X. eexists _, h, h. by rewrite !NND_query_run.
Qed.

Lemma LNND_query_twice (d : LNND.Description) h :
  LNND_fitted d h → query_twice_same d h.
Proof.
  intros [D HD] X.
  assert (∃ r, query d X h = (r, h)) as [r Hr].
  { unfold query. rewrite run_lift. simpl.
    destruct (index_query _ _ _) as [[qn qd]|e]; [|by eexists].
    rewrite (LNND_query_run d qn qd h D HD). by eexists. }
  exists r, h, h. by rewrite Hr.
Qed.

Lemma LOF_query_twice (d : LOF.Description) h :
  LOF_fitted d h → query_twice_same d h.
Proof.
  intros [[D HD] [L HL]] X. unfold query. rewrite !run_lift. simpl.
  destruct (index_query _ _ _) as [[qn qd]|e].
  - destruct (LOF_query_run d qn qd D L) as [R HR].
    rewrite (HR h HD HL). destruct R as [ratio|e].
    + eexists _, _, _. split; [done|]. split.
      * rewrite run_lift. simpl.
        rewrite (HR (h ++ [nan_to_one <$> ratio]));
          [done|by apply lookup_app_l_Some..].
      * split; by eexists.
    + exists (Raise e), h, h. rewrite run_lift, (HR h HD HL). done.
  - exists (Raise e), h, h. by rewrite run_lift.
Qed.

(** Claim C9: for every fitted description and every input [X], two
    queries in a row return the same result, and each query leaves every
    array that was in the heap before it untouched (it only adds
    objects), so that the fitted self-distances and local reachability
    densities are unchanged; the description's [k], operator and
    proximity are fields that no method assigns. *)
Theorem query_idempotent :
  (∀ (d : NND.Description) h, query_twice_same d h) ∧
  (∀ descriptor index h0 (d : LNND.Description) h h1,
     LNND.__init__ descriptor index h0 = (Ok d, h) → h `prefix_of` h1 →
     query_twice_same d h1) ∧
  (∀ model index h0 (d : LOF.Description) h h1,
     LOF.__init__ model index h0 = (Ok d, h) → h `prefix_of` h1 →
     query_twice_same d h1).
Proof.
  split; [apply NND_query_twice|]. split.
  - intros ?????? Hinit Hpre. eapply LNND_query_twice, LNND_init_fitted; eauto.
  - intros ?????? Hinit Hpre. eapply LOF_query_twice, LOF_init_fitted; eauto.
Qed.

Lemma query_idempotent_witness :
  query_twice_same (lnnd_description refs_dup) lnnd_heap_dup ∧
  query_twice_same (lof_description refs4) lof_heap4.
Proof.
  destruct lnnd_dup_fit as (h1 & Hfit1 & ->).
  destruct lof4_fit as (h2 & Hfit2 & ->).
  split.
  - exact (proj1 (proj2 query_idempotent) _ _ _ _ _ _ Hfit1 (reflexivity _)).
  - exact (proj2 (proj2 query_idempotent) _ _ _ _ _ _ Hfit2 (reflexivity _)).
Defined.
End idempotence.

(** ** Normalising a generated weight vector *)

Section scaling.
Local Open Scope Qc_scope.

Lemma scale_Fin (qs : list Qc) (s : Qc) :
  s ≠ 0 →
  (λ x, fdiv x (Fin s)) <$> (Fin <$> qs) = Fin <$> ((λ q, q / s) <$> qs).
Proof.
  intros Hs. rewrite <-!list_fmap_compose. apply list_fmap_ext.
  intros i q _. simpl. by apply fdiv_Fin.
Qed.

Lemma Qsum_scale (qs : list Qc) (s : Qc) :
  Qsum ((λ q, q / s) <$> qs) = Qsum qs / s.
Proof.
  induction qs as [|q qs IH].
  - change (Q2Qc 0 = Q2Qc 0 / s). unfold Qcdiv. ring.
  - rewrite fmap_cons, !Qsum_cons, IH. unfold Qcdiv. ring.
Qed.

Lemma Qsum_nonneg (qs : list Qc) : Forall (λ q, 0 ≤ q) qs → 0 ≤ Qsum qs.
Proof.
  induction 1 as [|q qs Hq _ IH]; [done|].
  rewrite Qsum_cons. by apply Qcplus_nonneg_nonneg.
Qed.

Lemma from_function_scaled f (k : Z) ml nm w :
  f k = Ok w →
  ∃ nm', OWAOperator.from_function f k true ml nm
         = Ok (OWAOperator.__init__ ((λ x, fdiv x (np_sum w)) <$> w) ml nm').
Proof.
  intros Hf. unfold OWAOperator.from_function. rewrite Hf. simpl. eauto.
Qed.

(** Property X1: [from_function] with [scale=True] divides the generated
    vector by its sum: from finite, non-negative values whose sum is not
    zero it builds an operator of the same length whose weights are the
    values over their sum, a vector of the simplex. *)
Theorem from_function_scale_simplex (f : Z → result ndarray1) (k : Z)
    (ml : bool) (nm : option string) (qs : list Qc) :
  f k = Ok (Fin <$> qs) → Forall (λ q, 0 ≤ q) qs → Qsum qs ≠ 0 →
  ∃ op, OWAOperator.from_function f k true ml nm = Ok op ∧
        OWAOperator.w op = Fin <$> ((λ q, q / Qsum qs) <$> qs) ∧
        OWAOperator.__len__ op = Z.of_nat (length qs) ∧
        OWAOperator.max_like op = ml ∧
        simplex (OWAOperator.w op).
Proof.
  intros Hf Hpos Hsum.
  destruct (from_function_scaled f k ml nm _ Hf) as [nm' Hop].
  eexists. split; [exact Hop|]. simpl.
  unfold OWAOperator.__len__. simpl.
  rewrite np_sum_Fin, scale_Fin by done. repeat split.
  - by rewrite !length_fmap.
  - apply Forall_nonneg_Fin, Forall_fmap. eapply Forall_impl; [exact Hpos|].
    intros q Hq. simpl. apply Qcdiv_nonneg; [done|].
    destruct (Qcle_lt_or_eq _ _ (Qsum_nonneg qs Hpos)) as [Hlt|Heq]; [done|].
    by destruct Hsum.
  - rewrite np_sum_Fin, Qsum_scale, Qcdiv_self by done.
    unfold fz. by rewrite Z2Qc_inj_1.
Qed.

Lemma from_function_scale_simplex_witness :
  ∃ op, OWAOperator.from_function (λ k, Ok (fz <$> np_arange 1 (k + 1))) 3 true false None
        = Ok op ∧
        OWAOperator.w op
        = Fin <$> ((λ q, q / Qsum [Qc_of_Z 1; Qc_of_Z 2; Qc_of_Z 3])
                     <$> [Qc_of_Z 1; Qc_of_Z 2; Qc_of_Z 3]) ∧
        OWAOperator.__len__ op = Z.of_nat (length [Qc_of_Z 1; Qc_of_Z 2; Qc_of_Z 3]) ∧
        OWAOperator.max_like op = false ∧
        simplex (OWAOperator.w op).
Proof.
  apply (from_function_scale_simplex (λ k, Ok (fz <$> np_arange 1 (k + 1))) 3 false None
           [Qc_of_Z 1; Qc_of_Z 2; Qc_of_Z 3]).
  - reflexivity.
  - repeat constructor; by compute.
  - by_evaluation.
Defined.

(** Property X2: [from_function] with [scale=True] does not guard the
    division: when the generated finite values sum to zero it raises
    nothing and returns an operator of the same length none of whose
    weights is finite (0/0 is NaN, x/0 an infinity). *)
Theorem from_function_scale_zero_sum (f : Z → result ndarray1) (k : Z)
    (ml : bool) (nm : option string) (qs : list Qc) :
  f k = Ok (Fin <$> qs) → Qsum qs = 0 →
  ∃ op, OWAOperator.from_function f k true ml nm = Ok op ∧
        length (OWAOperator.w op) = length qs ∧
        Forall not_finite (OWAOperator.w op).
Proof.
  intros Hf Hsum.
  destruct (from_function_scaled f k ml nm _ Hf) as [nm' Hop].
  eexists. split; [exact Hop|]. simpl. rewrite np_sum_Fin, Hsum. split.
  - by rewrite !length_fmap.
  - rewrite <-list_fmap_compose. apply Forall_fmap, Forall_true. intros q. simpl.
    by repeat case_decide.
Qed.

Lemma from_function_scale_zero_sum_witness :
  ∃ op, OWAOperator.from_function (λ k, np_zeros k) 2 true false None = Ok op ∧
        length (OWAOperator.w op) = length [Qc_of_Z 0; Qc_of_Z 0] ∧
        Forall not_finite (OWAOperator.w op).
Proof.
  apply (from_function_scale_zero_sum (λ k, np_zeros k) 2 false None
           [Qc_of_Z 0; Qc_of_Z 0]).
  - reflexivity.
  - by_evaluation.
Defined.
End scaling.

(** ** Equality of operators *)

Section equality.

Lemma feq_true (x y : npfloat) : feq x y = true ↔ x = y ∧ x ≠ NaN.
Proof.
  unfold feq. destruct x, y; simpl; rewrite ?bool_decide_eq_true;
    intuition (try congruence; try discriminate).
Qed.

Lemma feq_sym (x y : npfloat) : feq x y = feq y x.
Proof.
  unfold feq. destruct x, y; simpl; try done.
  apply bool_decide_ext. split; congruence.
Qed.

Lemma np_array_equal_true (a b : ndarray1) :
  np_array_equal a b = true ↔ a = b ∧ NaN ∉ a.
Proof.
  unfold np_array_equal. rewrite andb_true_iff, bool_decide_eq_true.
  revert b. induction a as [|x a IH]; intros [|y b]; simpl.
  - split; [|done]. intros _. split; [done|]. by intros ?%elem_of_nil.
  - split; [by intros [[=] _]|by intros [[=] _]].
  - split; [by intros [[=] _]|by intros [[=] _]].
  - rewrite andb_true_iff, feq_true, not_elem_of_cons. split.
    + intros (Hlen & [-> Hx] & Hall). destruct (IH b) as [[-> Hb] _]; [|done].
      split; [congruence|done].
    + intros ([= -> ->] & Hx & Hb). destruct (IH b) as [_ [_ Hall]]; [done|].
      repeat split; congruence.
Qed.

Lemma np_array_equal_sym (a b : ndarray1) : np_array_equal a b = np_array_equal b a.
Proof.
  unfold np_array_equal. f_equal; [apply bool_decide_ext; split; congruence|].
  revert b. induction a as [|x a IH]; intros [|y b]; simpl; try done.
  by rewrite feq_sym, IH.
Qed.

(** Property X3: [__eq__] compares the weights with [np.array_equal] and
    the two flags, and nothing else: two operators are equal exactly when
    they have the same weight vector, free of NaN, and the same [max_like],
    whatever their names.  The comparison is symmetric, but an operator
    with a NaN weight is not equal to itself. *)
Theorem eq_weights_and_flag (a b : OWAOperator.t) :
  (OWAOperator.__eq__ a (OWAOperator.PyOp b) = OWAOperator.EqBool true ↔
     OWAOperator.w a = OWAOperator.w b ∧
     OWAOperator.max_like a = OWAOperator.max_like b ∧
     NaN ∉ OWAOperator.w a) ∧
  OWAOperator.__eq__ a (OWAOperator.PyOp b) = OWAOperator.__eq__ b (OWAOperator.PyOp a) ∧
  (OWAOperator.__eq__ a (OWAOperator.PyOp a) = OWAOperator.EqBool true ↔
     NaN ∉ OWAOperator.w a).
Proof.
  assert (∀ a b, OWAOperator.__eq__ a (OWAOperator.PyOp b) = OWAOperator.EqBool true ↔
     OWAOperator.w a = OWAOperator.w b ∧
     OWAOperator.max_like a = OWAOperator.max_like b ∧
     NaN ∉ OWAOperator.w a) as Hchar.
  { intros a' b'. simpl. split.
    - intros [= Heq]. apply andb_true_iff in Heq as [Hw Hml].
      apply np_array_equal_true in Hw as [Hw Hnan].
      by apply bool_decide_eq_true in Hml.
    - intros (Hw & Hml & Hnan). f_equal. apply andb_true_iff. split.
      + by apply np_array_equal_true.
      + by apply bool_decide_eq_true. }
  split; [apply Hchar|]. split.
  - simpl. f_equal. rewrite np_array_equal_sym. f_equal.
    apply bool_decide_ext. split; congruence.
  - rewrite Hchar. intuition.
Qed.
End equality.

(** ** The value of an operator on finite values *)

Section owa_values.
Local Open Scope Qc_scope.

(** The sorted vector depends on the values only, not on their order. *)
Lemma np_sort_perm (v v' : ndarray1) : v ≡ₚ v' → np_sort v = np_sort v'.
Proof.
  intros Hp. apply (Sorted_unique fle); [apply np_sort_Sorted..|].
  by rewrite !np_sort_Permutation.
Qed.

(** Sorting finite values is sorting the rationals. *)
Lemma np_sort_Qc (vs : list Qc) : np_sort (Fin <$> vs) = Fin <$> merge_sort Qcle vs.
Proof.
  apply (Sorted_unique fle).
  - apply np_sort_Sorted.
  - apply (Sorted_fmap _ Qcle fle); [done|]. apply Sorted_merge_sort, _.
  - by rewrite np_sort_Permutation, merge_sort_Permutation.
Qed.

Lemma Qsum_perm (l l' : list Qc) : l ≡ₚ l' → Qsum l = Qsum l'.
Proof.
  induction 1 as [|x l l' _ IH|x y l|l l' l'' _ IH1 _ IH2]; rewrite ?Qsum_cons.
  - done.
  - by rewrite IH.
  - ring.
  - congruence.
Qed.

(** Both applications of an operator with finite weights to enough finite
    values, as weighted sums over the sorted values. *)
Lemma apply_Qdot (ws vs : list Qc) (ml : bool) (nm : option string) (b : bool) :
  (length ws ≤ length vs)%nat →
  OWAOperator._apply (OWAOperator.__init__ (Fin <$> ws) ml nm) (Fin <$> vs) b
  = Ok (Fin (Qdot (if b then take (length ws) (reverse (merge_sort Qcle vs))
                   else reverse (take (length ws) (merge_sort Qcle vs)))
                  (if ml && b then ws else reverse ws))).
Proof.
  intros Hlen.
  assert (length (merge_sort Qcle vs) = length vs) as Hs
    by (by rewrite merge_sort_Permutation).
  unfold OWAOperator._apply. simpl OWAOperator.max_like. simpl OWAOperator.w.
  simpl OWAOperator.k. rewrite length_fmap.
  rewrite limit_and_sort_bottom, limit_and_sort_top, np_sort_Qc.
  unfold np_flip. rewrite <-!fmap_reverse, <-!fmap_take, <-!fmap_reverse.
  destruct b, ml; simpl andb; cbv iota;
    rewrite weighted_sum; try done;
    rewrite ?length_reverse, ?length_take, ?length_reverse; lia.
Qed.

Lemma Qdot_bounds (lo hi : Qc) (a w : list Qc) :
  length a = length w →
  Forall (λ x, lo ≤ x ≤ hi) a → Forall (λ y, 0 ≤ y) w →
  lo * Qsum w ≤ Qdot a w ≤ hi * Qsum w.
Proof.
  intros Hlen Ha. revert w Hlen.
  induction Ha as [|x a [Hlo Hhi] _ IH]; intros [|y w] Hlen Hw; try done.
  - change (Qsum []) with (Q2Qc 0). change (Qdot [] []) with (Q2Qc 0).
    by rewrite !Qcmult_0_r.
  - apply Forall_cons in Hw as [Hy Hw]. simpl in Hlen.
    destruct (IH w) as [IHlo IHhi]; [lia|done|].
    rewrite Qdot_cons, Qsum_cons, !Qcmult_plus_distr_r.
    split; (apply Qcplus_le_compat; [by apply Qcmult_le_compat_r|done]).
Qed.

Lemma Qdot_mono (a b w : list Qc) :
  Forall2 Qcle a b → Forall (λ y, 0 ≤ y) w → Qdot a w ≤ Qdot b w.
Proof.
  intros Hab. revert w.
  induction Hab as [|x y a b Hxy _ IH]; intros [|z w] Hw; try done.
  apply Forall_cons in Hw as [Hz Hw]. rewrite !Qdot_cons.
  apply Qcplus_le_compat; [by apply Qcmult_le_compat_r|by apply IH].
Qed.

(** Property X4: an operator whose weights are on the simplex returns a
    convex combination: for every vector of at least k finite values, the
    soft maximum and the soft minimum are finite and lie within any
    bounds of the values, whichever way the operator is flagged. *)
Theorem owa_within_bounds (ws vs : list Qc) (ml : bool) (nm : option string)
    (lo hi : Qc) :
  Forall (λ q, 0 ≤ q) ws → Qsum ws = 1 → (length ws ≤ length vs)%nat →
  Forall (λ v, lo ≤ v ≤ hi) vs →
  let op := OWAOperator.__init__ (Fin <$> ws) ml nm in
  ∃ a b, OWAOperator.soft_max op (Fin <$> vs) = Ok (Fin a) ∧
         OWAOperator.soft_min op (Fin <$> vs) = Ok (Fin b) ∧
         lo ≤ a ≤ hi ∧ lo ≤ b ≤ hi.
Proof.
  intros Hw Hsum Hlen Hv op.
  assert (length (merge_sort Qcle vs) = length vs) as Hs
    by (by rewrite merge_sort_Permutation).
  assert (∀ a w, length a = length ws → Forall (λ x, lo ≤ x ≤ hi) a →
                 w = ws ∨ w = reverse ws → lo ≤ Qdot a w ≤ hi) as Hdot.
  { intros a w Ha HPa Hww.
    assert (length a = length w ∧ Forall (λ y, 0 ≤ y) w ∧ Qsum w = 1) as (? & ? & Hw1).
    { destruct Hww as [->| ->]; [done|].
      by rewrite length_reverse, Forall_reverse, Qsum_reverse. }
    pose proof (Qdot_bounds lo hi a w) as Hb.
    rewrite Hw1, !Qcmult_1_r in Hb. by apply Hb. }
  eexists _, _. unfold OWAOperator.soft_max, OWAOperator.soft_min, op.
  rewrite !apply_Qdot by done. split; [done|]. split; [done|]. split.
  - apply Hdot.
    + rewrite length_take, length_reverse. lia.
    + apply Forall_take, Forall_reverse. by rewrite merge_sort_Permutation.
    + destruct ml; auto.
  - apply Hdot.
    + rewrite length_reverse, length_take. lia.
    + apply Forall_reverse, Forall_take. by rewrite merge_sort_Permutation.
    + rewrite andb_false_r. auto.
Qed.

Lemma owa_within_bounds_witness :
  let op := OWAOperator.__init__ (Fin <$> [(1 / 2)%Qc; (1 / 2)%Qc]) false None in
  ∃ a b, OWAOperator.soft_max op (Fin <$> [Qc_of_Z 3; Qc_of_Z 1; Qc_of_Z 2]) = Ok (Fin a) ∧
         OWAOperator.soft_min op (Fin <$> [Qc_of_Z 3; Qc_of_Z 1; Qc_of_Z 2]) = Ok (Fin b) ∧
         Qc_of_Z 1 ≤ a ≤ Qc_of_Z 3 ∧ Qc_of_Z 1 ≤ b ≤ Qc_of_Z 3.
Proof.
  apply (owa_within_bounds [(1 / 2)%Qc; (1 / 2)%Qc] [Qc_of_Z 3; Qc_of_Z 1; Qc_of_Z 2]
           false None (Qc_of_Z 1) (Qc_of_Z 3)).
  - repeat constructor; by compute.
  - by_evaluation.
  - simpl. lia.
  - repeat constructor; by compute.
Defined.

(** Property X5: the value of an operator depends on the values of the
    input vector only, not on their order. *)
Theorem apply_order_independent (op : OWAOperator.t) (v v' : ndarray1) :
  v ≡ₚ v' →
  OWAOperator.soft_max op v = OWAOperator.soft_max op v' ∧
  OWAOperator.soft_min op v = OWAOperator.soft_min op v'.
Proof.
  intros Hp.
  unfold OWAOperator.soft_max, OWAOperator.soft_min, OWAOperator._apply, limit_and_sort.
  by rewrite (np_sort_perm v v' Hp).
Qed.

Lemma apply_order_independent_witness :
  OWAOperator.soft_max trimmed2 [fz 3; fz 1; fz 2]
  = OWAOperator.soft_max trimmed2 [fz 1; fz 2; fz 3] ∧
  OWAOperator.soft_min trimmed2 [fz 3; fz 1; fz 2]
  = OWAOperator.soft_min trimmed2 [fz 1; fz 2; fz 3].
Proof.
  apply (apply_order_independent trimmed2 [fz 3; fz 1; fz 2] [fz 1; fz 2; fz 3]).
  etrans; [apply Permutation_swap|]. apply perm_skip, Permutation_swap.
Defined.

(** Property X6: for an operator that is not max-like, [_apply] reverses
    the weights for the soft minimum as it does for the soft maximum, and
    on a vector of exactly k values both select all values in descending
    order: the soft minimum and the soft maximum are then the same. *)
Theorem min_like_full_length (op : OWAOperator.t) (v : ndarray1) :
  OWAOperator.max_like op = false →
  OWAOperator.k op = Z.of_nat (length v) →
  OWAOperator.soft_min op v = OWAOperator.soft_max op v.
Proof.
  intros Hml Hk.
  unfold OWAOperator.soft_max, OWAOperator.soft_min, OWAOperator._apply.
  rewrite Hml, Hk, limit_and_sort_bottom, limit_and_sort_top. simpl andb. cbv iota.
  unfold np_flip.
  by rewrite !take_ge by (by rewrite ?length_reverse, np_sort_length).
Qed.

Lemma min_like_full_length_witness :
  OWAOperator.soft_min trimmed2 [fz 0; fz 1] = OWAOperator.soft_max trimmed2 [fz 0; fz 1].
Proof. by apply (min_like_full_length trimmed2 [fz 0; fz 1]). Defined.

Lemma StronglySorted_lookup_le (l : list Qc) (i j : nat) (x y : Qc) :
  StronglySorted Qcle l → (i ≤ j)%nat →
  l !! i = Some x → l !! j = Some y → x ≤ y.
Proof.
  intros Hs. revert i j. induction Hs as [|a l _ IH Ha]; intros i j Hij Hi Hj; [done|].
  destruct i as [|i], j as [|j]; simpl in *; try lia.
  - injection Hi as <-. injection Hj as <-. apply Qcle_refl.
  - injection Hi as <-. rewrite Forall_forall in Ha.
    apply Ha. by eapply list_elem_of_lookup_2.
  - apply (IH i j); [lia|done..].
Qed.

(** In a sorted vector the first n values are, position by position, below
    the last n values. *)
Lemma sorted_bottom_le_top (qs : list Qc) (n : nat) :
  Sorted Qcle qs → (n ≤ length qs)%nat →
  Forall2 Qcle (reverse (take n qs)) (take n (reverse qs)).
Proof.
  intros Hs Hn. rewrite take_reverse. apply Forall2_reverse.
  apply Sorted_StronglySorted in Hs; [|apply _].
  apply Forall2_same_length_lookup_2.
  - rewrite length_take, length_drop. lia.
  - intros i x y Hx Hy. rewrite lookup_drop in Hy.
    apply lookup_take_Some in Hx as [Hx _].
    apply (StronglySorted_lookup_le qs i (length qs - n + i) x y); [done|lia|done..].
Qed.

(** Property X7: for an operator that is not max-like, with finite
    non-negative weights, the soft minimum of at least k finite values is
    at most their soft maximum. *)
Theorem min_like_soft_min_le_soft_max (ws vs : list Qc) (nm : option string) :
  Forall (λ q, 0 ≤ q) ws → (length ws ≤ length vs)%nat →
  let op := OWAOperator.__init__ (Fin <$> ws) false nm in
  ∃ a b, OWAOperator.soft_min op (Fin <$> vs) = Ok (Fin a) ∧
         OWAOperator.soft_max op (Fin <$> vs) = Ok (Fin b) ∧
         a ≤ b.
Proof.
  intros Hw Hlen op.
  eexists _, _. unfold OWAOperator.soft_max, OWAOperator.soft_min, op.
  rewrite !apply_Qdot by done. split; [done|]. split; [done|]. simpl andb. cbv iota.
  apply Qdot_mono; [|by apply Forall_reverse].
  apply sorted_bottom_le_top; [apply Sorted_merge_sort, _|].
  by rewrite merge_sort_Permutation.
Qed.

Lemma min_like_soft_min_le_soft_max_witness :
  let op := OWAOperator.__init__ (Fin <$> [Qc_of_Z 1 / Qc_of_Z 3; Qc_of_Z 2 / Qc_of_Z 3]) false None in
  ∃ a b, OWAOperator.soft_min op (Fin <$> [Qc_of_Z 3; Qc_of_Z 1; Qc_of_Z 2]) = Ok (Fin a) ∧
         OWAOperator.soft_max op (Fin <$> [Qc_of_Z 3; Qc_of_Z 1; Qc_of_Z 2]) = Ok (Fin b) ∧
         a ≤ b.
Proof.
  apply (min_like_soft_min_le_soft_max [Qc_of_Z 1 / Qc_of_Z 3; Qc_of_Z 2 / Qc_of_Z 3]
           [Qc_of_Z 3; Qc_of_Z 1; Qc_of_Z 2] None).
  - repeat constructor; by compute.
  - simpl. lia.
Defined.

Lemma fmul_one_r (x : npfloat) : fmul x (fz 1) = x.
Proof.
  unfold fz. rewrite Z2Qc_inj_1. destruct x as [q| | |]; simpl; try done.
  by rewrite Qcmult_1_r.
Qed.

Lemma fadd_zero_r (x : npfloat) : fadd x (fz 0) = x.
Proof.
  unfold fz. rewrite Z2Qc_inj_0. destruct x as [q| | |]; simpl; try done.
  by rewrite Qcplus_0_r.
Qed.

(** The first value of the ascending order is a lower bound of the vector
    and one of its values. *)
Lemma kth_smallest_1_min (v : ndarray1) (y : npfloat) :
  kth_smallest v 1 = Some y → y ∈ v ∧ Forall (fle y) v.
Proof.
  unfold kth_smallest. change (Z.to_nat (1 - 1)) with 0%nat. intros Hhead.
  rewrite <-(np_sort_Permutation v).
  pose proof (Sorted_StronglySorted fle _ (np_sort_Sorted v)) as Hs.
  destruct (np_sort v) as [|a s]; [done|]. injection Hhead as ->.
  apply StronglySorted_inv in Hs as [_ Hall].
  split; [by left|]. constructor; [|done]. by destruct (total fle y y).
Qed.

(** Property X8: the operator [strict] takes the extremes: on a vector
    that is not empty its soft maximum is the last value and its soft
    minimum the first value of the order of [np.sort] (NaN after all
    numbers): values of the vector that bound all others. *)
Theorem strict_selects_extremes (v : ndarray1) :
  v ≠ [] →
  ∃ x y, OWAOperator.soft_max strict v = Ok x ∧ kth_largest v 1 = Some x ∧
         x ∈ v ∧ Forall (λ z, fle z x) v ∧
         OWAOperator.soft_min strict v = Ok y ∧ kth_smallest v 1 = Some y ∧
         y ∈ v ∧ Forall (fle y) v.
Proof.
  intros Hv.
  assert (length (np_sort v) ≠ 0%nat) as Hlen
    by (rewrite np_sort_length; by destruct v).
  destruct (np_sort v) as [|y s] eqn:Hs; [done|].
  destruct (reverse (y :: s)) as [|x r] eqn:Hr.
  { apply (f_equal length) in Hr. by rewrite length_reverse in Hr. }
  assert (kth_largest v 1 = Some x) as Hx by (unfold kth_largest; by rewrite Hs, Hr).
  assert (kth_smallest v 1 = Some y) as Hy by (unfold kth_smallest; by rewrite Hs).
  destruct (kth_largest_1_max _ _ Hx) as [Hxin Hxmax].
  destruct (kth_smallest_1_min _ _ Hy) as [Hyin Hymin].
  exists x, y. repeat split; try done.
  - unfold OWAOperator.soft_max, OWAOperator._apply.
    change (- OWAOperator.k strict)%Z with (- Z.of_nat 1)%Z.
    rewrite limit_and_sort_top, Hs, Hr. simpl.
    by rewrite fmul_one_r, fadd_zero_r.
  - unfold OWAOperator.soft_min, OWAOperator._apply.
    change (OWAOperator.k strict)%Z with (Z.of_nat 1)%Z.
    rewrite limit_and_sort_bottom, Hs. simpl.
    by rewrite fmul_one_r, fadd_zero_r.
Qed.

Lemma strict_selects_extremes_witness :
  ∃ x y, OWAOperator.soft_max strict [fz 2; NaN; fz 1] = Ok x ∧
         kth_largest [fz 2; NaN; fz 1] 1 = Some x ∧
         x ∈ [fz 2; NaN; fz 1] ∧ Forall (λ z, fle z x) [fz 2; NaN; fz 1] ∧
         OWAOperator.soft_min strict [fz 2; NaN; fz 1] = Ok y ∧
         kth_smallest [fz 2; NaN; fz 1] 1 = Some y ∧
         y ∈ [fz 2; NaN; fz 1] ∧ Forall (fle y) [fz 2; NaN; fz 1].
Proof. by apply (strict_selects_extremes [fz 2; NaN; fz 1]). Defined.

Lemma Qdot_replicate (a : list Qc) (c : Qc) :
  Qdot a (replicate (length a) c) = Qsum a * c.
Proof.
  induction a as [|x a IH].
  - change (Q2Qc 0 = Q2Qc 0 * c). ring.
  - simpl length. simpl replicate. rewrite Qdot_cons, Qsum_cons, IH. ring.
Qed.

(** Property X9: the operator [mean(k)] averages: on a vector of at least
    k finite values its soft maximum is the arithmetic mean of the k
    largest values and its soft minimum that of the k smallest values; on
    exactly k values both are the arithmetic mean of the vector. *)
Theorem mean_averages (k : Z) (vs : list Qc) :
  (1 ≤ k ≤ Z.of_nat (length vs))%Z →
  let sorted := merge_sort Qcle vs in
  ∃ op, mean k = Ok op ∧
        OWAOperator.soft_max op (Fin <$> vs)
        = Ok (Fin (Qsum (take (Z.to_nat k) (reverse sorted)) / Qc_of_Z k)) ∧
        OWAOperator.soft_min op (Fin <$> vs)
        = Ok (Fin (Qsum (take (Z.to_nat k) sorted) / Qc_of_Z k)) ∧
        (k = Z.of_nat (length vs) →
         OWAOperator.soft_max op (Fin <$> vs) = Ok (Fin (Qsum vs / Qc_of_Z k)) ∧
         OWAOperator.soft_min op (Fin <$> vs) = Ok (Fin (Qsum vs / Qc_of_Z k))).
Proof.
  intros Hk sorted. set (n := Z.to_nat k).
  assert (length sorted = length vs) as Hs
    by (unfold sorted; by rewrite merge_sort_Permutation).
  assert (0 < Qc_of_Z k) as Hpos by (apply Qc_of_Z_pos; lia).
  assert (∀ s, s * (1 / Qc_of_Z k) = s / Qc_of_Z k) as Hinv.
  { intros s. unfold Qcdiv. ring. }
  assert (mean_weights k = Ok (Fin <$> replicate n (1 / Qc_of_Z k))) as Hw.
  { unfold mean_weights, np_full. rewrite !decide_False by lia.
    by rewrite fmap_replicate. }
  destruct (family_Ok _ false (Some "mean") k _ Hw) as [nm Hop].
  assert (OWAOperator.soft_max
            (OWAOperator.__init__ (Fin <$> replicate n (1 / Qc_of_Z k)) false nm)
            (Fin <$> vs) = Ok (Fin (Qsum (take n (reverse sorted)) / Qc_of_Z k))) as Hmax.
  { unfold OWAOperator.soft_max. rewrite apply_Qdot by (rewrite length_replicate; lia).
    simpl andb. cbv iota. rewrite length_replicate, reverse_replicate. fold sorted.
    replace (replicate n (1 / Qc_of_Z k))
      with (replicate (length (take n (reverse sorted))) (1 / Qc_of_Z k))
      by (f_equal; rewrite length_take, length_reverse; lia).
    by rewrite Qdot_replicate, Hinv. }
  assert (OWAOperator.soft_min
            (OWAOperator.__init__ (Fin <$> replicate n (1 / Qc_of_Z k)) false nm)
            (Fin <$> vs) = Ok (Fin (Qsum (take n sorted) / Qc_of_Z k))) as Hmin.
  { unfold OWAOperator.soft_min. rewrite apply_Qdot by (rewrite length_replicate; lia).
    simpl andb. cbv iota. rewrite length_replicate, reverse_replicate. fold sorted.
    replace (replicate n (1 / Qc_of_Z k))
      with (replicate (length (reverse (take n sorted))) (1 / Qc_of_Z k))
      by (f_equal; rewrite length_reverse, length_take; lia).
    by rewrite Qdot_replicate, Hinv, Qsum_reverse. }
  eexists. split; [exact Hop|]. split; [exact Hmax|]. split; [exact Hmin|].
  intros Hfull. rewrite Hmax, Hmin.
  rewrite !take_ge by (rewrite ?length_reverse; lia).
  rewrite Qsum_reverse, (Qsum_perm sorted vs) by apply merge_sort_Permutation.
  done.
Qed.

Lemma mean_averages_witness :
  let sorted := merge_sort Qcle [Qc_of_Z 3; Qc_of_Z 1; Qc_of_Z 2] in
  ∃ op, mean 2 = Ok op ∧
        OWAOperator.soft_max op (Fin <$> [Qc_of_Z 3; Qc_of_Z 1; Qc_of_Z 2])
        = Ok (Fin (Qsum (take (Z.to_nat 2) (reverse sorted)) / Qc_of_Z 2)) ∧
        OWAOperator.soft_min op (Fin <$> [Qc_of_Z 3; Qc_of_Z 1; Qc_of_Z 2])
        = Ok (Fin (Qsum (take (Z.to_nat 2) sorted) / Qc_of_Z 2)) ∧
        (2%Z = Z.of_nat (length [Qc_of_Z 3; Qc_of_Z 1; Qc_of_Z 2]) →
         OWAOperator.soft_max op (Fin <$> [Qc_of_Z 3; Qc_of_Z 1; Qc_of_Z 2])
         = Ok (Fin (Qsum [Qc_of_Z 3; Qc_of_Z 1; Qc_of_Z 2] / Qc_of_Z 2)) ∧
         OWAOperator.soft_min op (Fin <$> [Qc_of_Z 3; Qc_of_Z 1; Qc_of_Z 2])
         = Ok (Fin (Qsum [Qc_of_Z 3; Qc_of_Z 1; Qc_of_Z 2] / Qc_of_Z 2))).
Proof.
  apply (mean_averages 2 [Qc_of_Z 3; Qc_of_Z 1; Qc_of_Z 2]). simpl. lia.
Defined.
End owa_values.

(** ** The families at their edges and the shape of their weights *)

Section family_shapes.
Local Open Scope Qc_scope.

Lemma np_arange_empty (a b : Z) : (b ≤ a)%Z → np_arange a b = [].
Proof. intros Hab. unfold np_arange, seqZ. by rewrite Z2Nat.nonpos by lia. Qed.

(** Property X10: no family checks its argument.  For every k of zero or
    below, [additive], [exponential] and [invadd] raise nothing and return
    an operator without weights, of length 0; [mean] raises
    ZeroDivisionError at 0 (from [1 / k]) and ValueError below (from
    [np.full]); [trimmed] raises ValueError (from [np.zeros(k - 1)]). *)
Theorem families_nonpositive_k (k : Z) :
  (k ≤ 0)%Z →
  additive k = Ok (OWAOperator.mk [] 0 false (Some ("additive(" +:+ pretty k +:+ ")"))) ∧
  exponential k
  = Ok (OWAOperator.mk [] 0 true (Some ("exponential(" +:+ pretty k +:+ ")"))) ∧
  invadd k = Ok (OWAOperator.mk [] 0 true (Some ("invadd(" +:+ pretty k +:+ ")"))) ∧
  mean k = Raise (if decide (k = 0%Z) then ZeroDivisionError else ValueError) ∧
  trimmed k = Raise ValueError.
Proof.
  intros Hk. repeat split.
  - unfold additive, OWAOperator.family, OWAOperator.from_function, additive_weights.
    by rewrite np_arange_empty by lia.
  - unfold exponential, OWAOperator.family, OWAOperator.from_function,
      exponential_weights.
    by rewrite decide_True, np_arange_empty by lia.
  - unfold invadd, OWAOperator.family, OWAOperator.from_function, invadd_weights.
    by rewrite np_arange_empty by lia.
  - unfold mean, OWAOperator.family, OWAOperator.from_function, mean_weights, np_full.
    destruct (decide (k = 0%Z)) as [->|Hk0]; [done|]. by rewrite decide_True by lia.
  - unfold trimmed, OWAOperator.family, OWAOperator.from_function, trimmed_weights,
      np_zeros, np_full.
    by rewrite decide_True by lia.
Qed.

Lemma families_nonpositive_k_witness :
  additive 0 = Ok (OWAOperator.mk [] 0 false (Some ("additive(" +:+ pretty 0%Z +:+ ")"))) ∧
  exponential 0
  = Ok (OWAOperator.mk [] 0 true (Some ("exponential(" +:+ pretty 0%Z +:+ ")"))) ∧
  invadd 0 = Ok (OWAOperator.mk [] 0 true (Some ("invadd(" +:+ pretty 0%Z +:+ ")"))) ∧
  mean 0 = Raise (if decide (0 = 0)%Z then ZeroDivisionError else ValueError) ∧
  trimmed 0 = Raise ValueError.
Proof. apply (families_nonpositive_k 0). lia. Defined.

Lemma cumprod_half_lookup (n i : nat) (a : Qc) :
  (i < n)%nat →
  cumprod_from (Fin a) (replicate n (Fin (1 / 2))) !! i = Some (Fin (a * (1 / 2) ^ S i)).
Proof.
  revert i a. induction n as [|n IH]; intros i a Hi; [lia|].
  destruct i as [|i]; simpl.
  - f_equal; f_equal; ring.
  - rewrite IH by lia. f_equal; f_equal; simpl; ring.
Qed.

(** Property X11: the weights of [exponential(k)] in closed form.  Below
    k = 32 weight i is 2^(k-1-i) / (2^k - 1); from k = 32 on, where the
    running products of 1/2 are used, weight i is (1/2)^(i+1), without a
    normalising constant. *)
Theorem exponential_weight (k : Z) (i : nat) :
  (1 ≤ k)%Z → (i < Z.to_nat k)%nat →
  ∃ op, exponential k = Ok op ∧
        OWAOperator.w op !! i
        = Some (Fin (if decide (k < 32)%Z
                     then Qc_of_Z (2 ^ (k - 1 - Z.of_nat i)) / Qc_of_Z (2 ^ k - 1)
                     else (1 / 2) ^ S i)).
Proof.
  intros Hk Hi. destruct (decide (k < 32)%Z) as [Hlt|Hge].
  - assert (exponential_weights k
            = Ok (reverse ((λ j, fdiv (fz (2 ^ j)) (fz (2 ^ k - 1))) <$> seqZ 0 k))) as Hw.
    { unfold exponential_weights, np_arange, np_flip.
      by rewrite decide_True, Z.sub_0_r by done. }
    destruct (family_Ok _ true (Some "exponential") k _ Hw) as [nm Hop].
    eexists. split; [exact Hop|]. simpl.
    rewrite reverse_lookup by (rewrite length_fmap, length_seqZ; lia).
    rewrite length_fmap, length_seqZ, list_lookup_fmap.
    rewrite lookup_seqZ_lt by lia. simpl. f_equal.
    replace (0 + Z.of_nat (Z.to_nat k - S i))%Z with (k - 1 - Z.of_nat i)%Z by lia.
    apply fdiv_fz. pose proof (pow2_gt_1 k Hk). lia.
  - assert (exponential_weights k
            = Ok (cumprod_from (Fin 1) (replicate (Z.to_nat k) (Fin (1 / 2))))) as Hw.
    { unfold exponential_weights, np_full, np_cumprod, fz.
      rewrite decide_False, decide_False by lia. simpl. by rewrite Z2Qc_inj_1. }
    destruct (family_Ok _ true (Some "exponential") k _ Hw) as [nm Hop].
    eexists. split; [exact Hop|]. simpl.
    rewrite cumprod_half_lookup by done. by rewrite Qcmult_1_l.
Qed.

Lemma exponential_weight_witness :
  ∃ op, exponential 3 = Ok op ∧
        OWAOperator.w op !! 1%nat
        = Some (Fin (if decide (3 < 32)%Z
                     then Qc_of_Z (2 ^ (3 - 1 - Z.of_nat 1)) / Qc_of_Z (2 ^ 3 - 1)
                     else (1 / 2) ^ 2)).
Proof. apply (exponential_weight 3 1); [lia|simpl; lia]. Defined.

Lemma Sorted_fmap_seqZ {A} (R : relation A) (f : Z → A) (m : Z) (n : nat) :
  (∀ i, (m ≤ i)%Z → (i + 1 < m + Z.of_nat n)%Z → R (f i) (f (i + 1)%Z)) →
  Sorted R (f <$> seqZ m (Z.of_nat n)).
Proof.
  revert m. induction n as [|n IH]; intros m Hf; [constructor|].
  rewrite seqZ_cons, fmap_cons by lia.
  replace (Z.pred (Z.of_nat (S n))) with (Z.of_nat n) by lia.
  constructor.
  - apply IH. intros i ? ?. apply Hf; lia.
  - destruct n as [|n]; [constructor|].
    rewrite seqZ_cons, fmap_cons by lia. constructor.
    replace (Z.succ m) with (m + 1)%Z by lia. apply Hf; lia.
Qed.

Lemma Sorted_replicate {A} (R : relation A) (n : nat) (x : A) :
  R x x → Sorted R (replicate n x).
Proof.
  intros Hx. induction n as [|n IH]; [constructor|].
  simpl. constructor; [done|]. destruct n; by constructor.
Qed.

Lemma Qcinv_le_anti (a b : Qc) : 0 < a → a ≤ b → / b ≤ / a.
Proof.
  intros Ha Hab.
  assert (0 < b) as Hb by (by eapply Qclt_le_trans).
  assert (a ≠ 0) as Ha0 by (intros ->; by apply Qclt_not_eq in Ha).
  assert (b ≠ 0) as Hb0 by (intros ->; by apply Qclt_not_eq in Hb).
  apply (Qcmult_le_mono_pos_r _ _ (a * b)); [by apply Qcmult_pos_pos|].
  replace (/ b * (a * b)) with a by (by field).
  replace (/ a * (a * b)) with b by (by field).
  done.
Qed.

Lemma Qcdiv_le_mono (a b c : Qc) : 0 < c → a ≤ b → a / c ≤ b / c.
Proof.
  intros Hc Hab. unfold Qcdiv. apply Qcmult_le_compat_r; [done|].
  by apply Qclt_le_weak, Qcinv_pos.
Qed.

Lemma Qchalf_le (x : Qc) : 0 ≤ x → x * (1 / 2) ≤ x.
Proof.
  intros Hx. rewrite <-(Qcmult_1_r x) at 2.
  apply Qcmult_le_mono_nonneg_l; [done|]. by compute.
Qed.

Lemma cumprod_half_Sorted (n : nat) (a : Qc) :
  0 ≤ a → Sorted fge (cumprod_from (Fin a) (replicate n (Fin (1 / 2)))).
Proof.
  revert a. induction n as [|n IH]; intros a Ha; [constructor|].
  assert (0 ≤ a * (1 / 2)) as Ha'.
  { apply Qcmult_nonneg_nonneg; [done|]. by compute. }
  simpl. constructor; [by apply IH|].
  destruct n as [|n]; simpl; constructor.
  unfold fge, flip. simpl. by apply Qchalf_le.
Qed.

Lemma trimmed_weights_Sorted (m : nat) : Sorted fle (replicate m (fz 0) ++ [fz 1]).
Proof.
  induction m as [|m IH]; simpl.
  - repeat constructor.
  - constructor; [done|]. destruct m; simpl; constructor; by compute.
Qed.

Lemma harmonic_Fin (n : nat) :
  np_sum ((λ i, fdiv (fz 1) (fz i)) <$> seqZ 1 (Z.of_nat n))
  = Fin (Qsum ((λ i, Qc_of_Z 1 / Qc_of_Z i) <$> seqZ 1 (Z.of_nat n))).
Proof.
  rewrite <-np_sum_Fin. f_equal. rewrite <-list_fmap_compose.
  apply Forall_fmap_ext, Forall_seqZ. intros i Hi. apply (fdiv_fz 1 i). lia.
Qed.

Lemma additive_ascending (k : Z) :
  (1 ≤ k)%Z →
  ∃ op, additive k = Ok op ∧ OWAOperator.max_like op = false ∧
        Sorted fle (OWAOperator.w op).
Proof.
  intros Hk. destruct (Z_of_nat_complete k) as [n ->]; [lia|].
  destruct (family_Ok additive_weights false (Some "additive") (Z.of_nat n) _ eq_refl)
    as [nm Hop].
  eexists. split; [exact Hop|]. split; [done|]. cbn [OWAOperator.w OWAOperator.__init__]. unfold np_arange.
  replace (Z.of_nat n + 1 - 1)%Z with (Z.of_nat n) by lia.
  apply Sorted_fmap_seqZ. intros i Hi1 Hi2. cbv beta.
  rewrite !fdiv_fz by nia. simpl.
  apply Qcdiv_le_mono; [apply Qc_of_Z_pos; nia|]. rewrite <-Z2Qc_inj_le. lia.
Qed.

Lemma exponential_descending (k : Z) :
  (1 ≤ k)%Z →
  ∃ op, exponential k = Ok op ∧ OWAOperator.max_like op = true ∧
        Sorted fge (OWAOperator.w op).
Proof.
  intros Hk. destruct (Z_of_nat_complete k) as [n ->]; [lia|].
  destruct (decide (Z.of_nat n < 32)%Z) as [Hlt|Hge].
  + assert (exponential_weights (Z.of_nat n)
            = Ok (reverse ((λ j, fdiv (fz (2 ^ j)) (fz (2 ^ Z.of_nat n - 1)))
                             <$> seqZ 0 (Z.of_nat n)))) as Hw.
    { unfold exponential_weights, np_arange, np_flip.
      by rewrite decide_True, Z.sub_0_r by done. }
    destruct (family_Ok _ true (Some "exponential") _ _ Hw) as [nm Hop].
    eexists. split; [exact Hop|]. split; [done|]. cbn [OWAOperator.w OWAOperator.__init__].
    apply Sorted_reverse, Sorted_fmap_seqZ. intros i Hi1 Hi2. cbv beta.
    pose proof (pow2_gt_1 (Z.of_nat n) Hk).
    rewrite !fdiv_fz by lia. simpl.
    apply Qcdiv_le_mono; [apply Qc_of_Z_pos; lia|]. rewrite <-Z2Qc_inj_le.
    apply Z.pow_le_mono_r; lia.
  + assert (exponential_weights (Z.of_nat n)
            = Ok (cumprod_from (Fin 1) (replicate n (Fin (1 / 2))))) as Hw.
    { unfold exponential_weights, np_full, np_cumprod, fz.
      rewrite decide_False, decide_False by lia. simpl.
      by rewrite Z2Qc_inj_1, Nat2Z.id. }
    destruct (family_Ok _ true (Some "exponential") _ _ Hw) as [nm Hop].
    eexists. split; [exact Hop|]. split; [done|]. cbn [OWAOperator.w OWAOperator.__init__].
    by apply cumprod_half_Sorted.
Qed.

Lemma invadd_descending (k : Z) :
  (1 ≤ k)%Z →
  ∃ op, invadd k = Ok op ∧ OWAOperator.max_like op = true ∧
        Sorted fge (OWAOperator.w op).
Proof.
  intros Hk. destruct (Z_of_nat_complete k) as [n ->]; [lia|].
  destruct (family_Ok invadd_weights true (Some "invadd") (Z.of_nat n) _ eq_refl)
    as [nm Hop].
  eexists. split; [exact Hop|]. split; [done|]. cbn [OWAOperator.w OWAOperator.__init__]. unfold np_arange.
  replace (Z.of_nat n + 1 - 1)%Z with (Z.of_nat n) by lia.
  rewrite harmonic_Fin.
  set (h := Qsum ((λ i, Qc_of_Z 1 / Qc_of_Z i) <$> seqZ 1 (Z.of_nat n))).
  assert (0 < h) as Hh by (apply harmonic_pos; lia).
  apply Sorted_fmap_seqZ. intros i Hi1 Hi2. unfold fge, flip. cbv beta.
  assert (0 < Qc_of_Z i * h) as Hpos
    by (apply Qcmult_pos_pos; [apply Qc_of_Z_pos; lia|done]).
  assert (Qc_of_Z i * h ≤ Qc_of_Z (i + 1) * h) as Hle.
  { apply Qcmult_le_compat_r; [rewrite <-Z2Qc_inj_le; lia|by apply Qclt_le_weak]. }
  assert (0 < Qc_of_Z (i + 1) * h) as Hpos' by (by eapply Qclt_le_trans).
  change (fmul (fz (i + 1)) (Fin h)) with (Fin (Qc_of_Z (i + 1) * h)).
  change (fmul (fz i) (Fin h)) with (Fin (Qc_of_Z i * h)). unfold fz.
  rewrite !fdiv_Fin
    by (intros Heq; rewrite Heq in *; by eapply Qclt_not_eq).
  simpl. unfold Qcdiv. rewrite !Z2Qc_inj_1, !Qcmult_1_l.
  by apply Qcinv_le_anti.
Qed.

Lemma mean_constant (k : Z) :
  (1 ≤ k)%Z →
  ∃ op, mean k = Ok op ∧ OWAOperator.max_like op = false ∧
        Sorted fle (OWAOperator.w op) ∧ Sorted fge (OWAOperator.w op).
Proof.
  intros Hk. destruct (Z_of_nat_complete k) as [n ->]; [lia|].
  assert (mean_weights (Z.of_nat n)
          = Ok (replicate n (Fin (1 / Qc_of_Z (Z.of_nat n))))) as Hw.
  { unfold mean_weights, np_full. rewrite !decide_False by lia.
    by rewrite Nat2Z.id. }
  destruct (family_Ok _ false (Some "mean") _ _ Hw) as [nm Hop].
  eexists. split; [exact Hop|]. split; [done|]. cbn [OWAOperator.w OWAOperator.__init__].
  split; apply Sorted_replicate; unfold fge, flip; simpl; apply Qcle_refl.
Qed.

Lemma trimmed_ascending (k : Z) :
  (1 ≤ k)%Z →
  ∃ op, trimmed k = Ok op ∧ OWAOperator.max_like op = false ∧
        Sorted fle (OWAOperator.w op).
Proof.
  intros Hk. destruct (Z_of_nat_complete k) as [n ->]; [lia|].
  destruct (trimmed_Ok (Z.of_nat n) Hk) as [nm Hop].
  eexists. split; [exact Hop|]. split; [done|]. cbn [OWAOperator.w OWAOperator.__init__].
  apply trimmed_weights_Sorted.
Qed.

(** Property X12: the order of the weights of each family follows its
    [max_like] flag.  For every k from 1 on, the families flagged max-like
    ([exponential], [invadd]) have weights in descending order, the
    others ([additive], [trimmed]) in ascending order, and the weights of
    [mean] are in both orders: they are all the same. *)
Theorem families_orientation (k : Z) :
  (1 ≤ k)%Z →
  (∃ op, additive k = Ok op ∧ OWAOperator.max_like op = false ∧
         Sorted fle (OWAOperator.w op)) ∧
  (∃ op, exponential k = Ok op ∧ OWAOperator.max_like op = true ∧
         Sorted fge (OWAOperator.w op)) ∧
  (∃ op, invadd k = Ok op ∧ OWAOperator.max_like op = true ∧
         Sorted fge (OWAOperator.w op)) ∧
  (∃ op, mean k = Ok op ∧ OWAOperator.max_like op = false ∧
         Sorted fle (OWAOperator.w op) ∧ Sorted fge (OWAOperator.w op)) ∧
  (∃ op, trimmed k = Ok op ∧ OWAOperator.max_like op = false ∧
         Sorted fle (OWAOperator.w op)).
Proof.
  intros Hk.
  split; [by apply additive_ascending|]. split; [by apply exponential_descending|].
  split; [by apply invadd_descending|]. split; [by apply mean_constant|].
  by apply trimmed_ascending.
Qed.

Lemma families_orientation_witness :
  (∃ op, additive 3 = Ok op ∧ OWAOperator.max_like op = false ∧
         Sorted fle (OWAOperator.w op)) ∧
  (∃ op, exponential 3 = Ok op ∧ OWAOperator.max_like op = true ∧
         Sorted fge (OWAOperator.w op)) ∧
  (∃ op, invadd 3 = Ok op ∧ OWAOperator.max_like op = true ∧
         Sorted fge (OWAOperator.w op)) ∧
  (∃ op, mean 3 = Ok op ∧ OWAOperator.max_like op = false ∧
         Sorted fle (OWAOperator.w op) ∧ Sorted fge (OWAOperator.w op)) ∧
  (∃ op, trimmed 3 = Ok op ∧ OWAOperator.max_like op = false ∧
         Sorted fle (OWAOperator.w op)).
Proof. apply (families_orientation 3). lia. Defined.
End family_shapes.

(** ** What the array operations preserve *)

Section arrays.

Lemma py_index_elem_of {A} (l : list A) (i : Z) (x : A) : py_index l i = Ok x → x ∈ l.
Proof.
  unfold py_index. cbv zeta. case_decide; [|done].
  destruct (l !! _) as [y|] eqn:Hy; [|done].
  intros [= <-]. by eapply list_elem_of_lookup_2.
Qed.

Lemma py_index_Raise {A} (l : list A) (i : Z) (e : exn) :
  py_index l i = Raise e → e = IndexError.
Proof.
  unfold py_index. cbv zeta. case_decide; [|by intros [= <-]].
  destruct (l !! _); [done|by intros [= <-]].
Qed.

Lemma py_index_out_of_range (D : ndarray1) (r : Z) :
  out_of_range D r → py_index D r = Raise IndexError.
Proof.
  unfold out_of_range, py_index. cbv zeta. intros Hr.
  rewrite (decide_False (P := (0 ≤ _ < _)%Z)); [done|].
  case_decide; lia.
Qed.

Lemma rmapM_Forall {A B} (f : A → result B) (P : A → Prop) (Q : B → Prop) l ys :
  (∀ x y, P x → f x = Ok y → Q y) →
  rmapM f l = Ok ys → Forall P l → Forall Q ys.
Proof.
  intros Hf. revert ys. induction l as [|x l IH]; intros ys Hm Hl.
  - injection Hm as <-. constructor.
  - apply rmapM_Ok_cons in Hm as (y & ys' & Hy & Hys & ->).
    apply Forall_cons in Hl as [Hx Hl]. constructor; eauto.
Qed.

(** A failing element makes the whole traversal fail, with the error of
    some element. *)
Lemma rmapM_Raise {A B} (f : A → result B) l x e :
  x ∈ l → f x = Raise e → ∃ e', rmapM f l = Raise e' ∧ ∃ x', x' ∈ l ∧ f x' = Raise e'.
Proof.
  intros Hx Hfx. induction l as [|a l IH]; [by apply elem_of_nil in Hx|].
  simpl. destruct (f a) as [y|e'] eqn:Ha; simpl.
  - apply elem_of_cons in Hx as [->|Hx]; [congruence|].
    destruct (IH Hx) as (e' & -> & x' & Hx' & He'). simpl.
    exists e'. split; [done|]. exists x'. split; [by right|done].
  - exists e'. split; [done|]. exists a. split; [by left|done].
Qed.

Lemma np_take1_Forall (P : npfloat → Prop) D idx r :
  np_take1 D idx = Ok r → Forall P D → Forall P r.
Proof.
  intros Hr HD.
  eapply (rmapM_Forall _ (λ _, True)); [|exact Hr|by apply Forall_true].
  intros i x _ Hx. rewrite Forall_forall in HD. by apply HD, (py_index_elem_of D i).
Qed.

Lemma np_take2_Forall (P : npfloat → Prop) D idx r :
  np_take2 D idx = Ok r → Forall P D → Forall (Forall P) r.
Proof.
  intros Hr HD.
  eapply (rmapM_Forall _ (λ _, True)); [|exact Hr|by apply Forall_true].
  intros row x _ Hx. by eapply np_take1_Forall.
Qed.

Lemma np_col_Forall {A} (P : A → Prop) (a : list (list A)) j col :
  np_col a j = Ok col → Forall (Forall P) a → Forall P col.
Proof.
  intros Hc Ha. eapply (rmapM_Forall _ (Forall P)); [|exact Hc|done].
  intros row x Hrow Hx. rewrite Forall_forall in Hrow.
  by apply Hrow, (py_index_elem_of row j).
Qed.

Lemma Forall_zip_with_2 {A B C} (f : A → B → C) (P : A → Prop) (Q : B → Prop)
    (R : C → Prop) a b :
  (∀ x y, P x → Q y → R (f x y)) → Forall P a → Forall Q b → Forall R (zip_with f a b).
Proof.
  intros Hf Ha. revert b. induction Ha as [|x a Hx _ IH]; intros b Hb; [constructor|].
  destruct Hb as [|y b Hy Hb]; simpl; constructor; auto.
Qed.

(** The three ways two 1-D operands combine. *)
Lemma np_binop_Ok f a b c :
  np_binop f a b = Ok c →
  (length a = length b ∧ c = zip_with f a b) ∨
  (∃ x, a = [x] ∧ c = f x <$> b) ∨
  (∃ y, b = [y] ∧ c = (λ x, f x y) <$> a).
Proof.
  unfold np_binop. case_decide.
  - intros [= <-]. by left.
  - intros Hc. right. destruct a as [|x [|x' a]], b as [|y [|y' b]]; try done;
      injection Hc as <-; first [left; by eexists|right; by eexists].
Qed.

Lemma np_binop_Forall f (P Q R : npfloat → Prop) a b c :
  (∀ x y, P x → Q y → R (f x y)) →
  np_binop f a b = Ok c → Forall P a → Forall Q b → Forall R c.
Proof.
  intros Hf Hc Ha Hb.
  destruct (np_binop_Ok _ _ _ _ Hc) as [[_ ->]|[(x & -> & ->)|(y & -> & ->)]].
  - by eapply Forall_zip_with_2.
  - apply Forall_fmap. apply Forall_cons in Ha as [Hx _].
    eapply Forall_impl; [exact Hb|]. intros z Hz. simpl. by apply Hf.
  - apply Forall_fmap. apply Forall_cons in Hb as [Hy _].
    eapply Forall_impl; [exact Ha|]. intros z Hz. simpl. by apply Hf.
Qed.

Lemma np_binop2_Ok f a b c :
  np_binop2 f a b = Ok c →
  (length a = length b ∧ rmapM (λ '(r, s), np_binop f r s) (zip a b) = Ok c) ∨
  (∃ r, a = [r] ∧ rmapM (np_binop f r) b = Ok c) ∨
  (∃ s, b = [s] ∧ rmapM (λ r, np_binop f r s) a = Ok c).
Proof.
  unfold np_binop2. case_decide.
  - intros Hc. by left.
  - intros Hc. right. destruct a as [|r [|r' a]], b as [|s [|s' b]]; try done;
      first [left; by eexists|right; by eexists].
Qed.

Lemma Forall_zip_pair {A B} (P : A → Prop) (Q : B → Prop) a b :
  Forall P a → Forall Q b → Forall (λ p, P p.1 ∧ Q p.2) (zip a b).
Proof.
  intros Ha. revert b. induction Ha as [|x a Hx _ IH]; intros b Hb; [constructor|].
  destruct Hb as [|y b Hy Hb]; simpl; constructor; auto.
Qed.

Lemma np_binop2_Forall f (P Q R : npfloat → Prop) a b c :
  (∀ x y, P x → Q y → R (f x y)) →
  np_binop2 f a b = Ok c →
  Forall (Forall P) a → Forall (Forall Q) b → Forall (Forall R) c.
Proof.
  intros Hf Hc Ha Hb.
  assert (∀ r s t, np_binop f r s = Ok t → Forall P r → Forall Q s → Forall R t) as Hrow
    by (intros r s t; by apply np_binop_Forall).
  destruct (np_binop2_Ok _ _ _ _ Hc) as [[_ Hm]|[(r & -> & Hm)|(s & -> & Hm)]].
  - eapply (rmapM_Forall _ (λ p, Forall P p.1 ∧ Forall Q p.2)); [|exact Hm|].
    + intros [r s] t [Hr Hs] Ht. exact (Hrow _ _ _ Ht Hr Hs).
    + by apply Forall_zip_pair.
  - apply Forall_cons in Ha as [Hr _].
    eapply (rmapM_Forall _ (Forall Q)); [|exact Hm|done].
    intros s t Hs Ht. exact (Hrow _ _ _ Ht Hr Hs).
  - apply Forall_cons in Hb as [Hs _].
    eapply (rmapM_Forall _ (Forall P)); [|exact Hm|done].
    intros r t Hr Ht. exact (Hrow _ _ _ Ht Hr Hs).
Qed.
End arrays.

(** ** The range of the scores *)

Section score_ranges.
Local Open Scope Qc_scope.

Lemma Qc_pos_nonzero (q : Qc) : 0 < q → q ≠ 0.
Proof. intros Hq ->. by apply Qclt_not_eq in Hq. Qed.

Lemma Qc_one_plus_pos (q : Qc) : 0 ≤ q → 0 < 1 + q.
Proof.
  intros Hq. apply Qclt_le_trans with (1 + 0); [by compute|].
  by apply Qcplus_le_compat.
Qed.

(** The proximity of a finite distance from zero on is in (0, 1]. *)
Lemma shifted_reciprocal_nonneg (q : Qc) :
  0 ≤ q → in_unit_pos (shifted_reciprocal (Fin q)).
Proof.
  intros Hq. pose proof (Qc_one_plus_pos q Hq) as Hpos.
  unfold shifted_reciprocal, fz. rewrite Z2Qc_inj_1.
  change (fadd (Fin 1) (Fin q)) with (Fin (1 + q)).
  rewrite fdiv_Fin by (by apply Qc_pos_nonzero). simpl.
  unfold Qcdiv. rewrite Qcmult_1_l. split; [by apply Qcinv_pos|].
  change (Q2Qc 1) with (/ Q2Qc 1) at 2.
  apply Qcinv_le_anti; [by compute|].
  rewrite <-(Qcplus_0_r 1) at 1. by apply Qcplus_le_compat.
Qed.

(** The LNND score from two finite distances from zero on. *)
Lemma LNND_score_range (x y : npfloat) :
  nonneg x → nonneg y →
  in_unit_pos (shifted_reciprocal (nan_to_num_keep_nan (div_or1 (fz 1) x y))).
Proof.
  destruct x as [a| | |], y as [b| | |]; try done. intros Ha Hb. simpl in Ha, Hb.
  unfold div_or1. case_decide as Hzero.
  - change (nan_to_num_keep_nan (fz 1)) with (fz 1).
    rewrite shifted_reciprocal_one. by compute.
  - destruct (decide (b = 0)) as [->|Hb0].
    + assert (a ≠ 0) as Ha0.
      { intros ->. apply Hzero. unfold fz. by rewrite Z2Qc_inj_0. }
      unfold fdiv. rewrite decide_True, decide_False, decide_True; try done.
      destruct (Qcle_lt_or_eq _ _ Ha) as [Hlt|Heq]; [done|]. by destruct Ha0.
    + rewrite fdiv_Fin by done. cbn [nan_to_num_keep_nan]. apply shifted_reciprocal_nonneg.
      apply Qcdiv_nonneg; [done|].
      destruct (Qcle_lt_or_eq _ _ Hb) as [Hlt|Heq]; [done|]. by destruct Hb0.
Qed.

(** Property X13: after a fit of LNND on an index whose self-distances
    are finite and not negative, every score of a successful query whose
    distances are finite and not negative is a finite number above 0 and
    at most 1. *)
Theorem LNND_scores_in_unit (descriptor : LNND.Descriptor) (index : Index)
    (h0 h h' : heap) (d : LNND.Description) (X : ndarray2)
    (ns qn : intarray2) (ds qd : ndarray2) (scores : ndarray1) :
  index_query_self index (resolve_k (LNND.k descriptor) index) = Ok (ns, ds) →
  Forall (Forall nonneg) ds →
  LNND.__init__ descriptor index h0 = (Ok d, h) →
  index_query index X (LNND.d_k d) = Ok (qn, qd) →
  Forall (Forall nonneg) qd →
  query d X h = (Ok scores, h') →
  Forall in_unit_pos scores.
Proof.
  intros Hself Hds Hinit Hidx Hqd Hq.
  rewrite LNND_init_run in Hinit. cbv zeta in Hinit. rewrite Hself in Hinit.
  destruct (np_col ds _) as [col|e] eqn:Hcol; [|done]. injection Hinit as <- <-.
  assert (Forall nonneg col) as HD by (by eapply np_col_Forall).
  unfold query in Hq. rewrite run_lift in Hq. simpl in Hq, Hidx. rewrite Hidx in Hq.
  rewrite (LNND_query_run _ qn qd _ col) in Hq by apply lookup_last.
  injection Hq as Hq _. simpl in Hq.
  apply rbind_Ok in Hq as (q_col & Hqc & Hq).
  apply rbind_Ok in Hq as (n_col & Hnc & Hq).
  apply rbind_Ok in Hq as (nd & Hnd & Hq).
  apply rbind_Ok in Hq as (l & Hl & [= <-]).
  rewrite <-list_fmap_compose. apply Forall_fmap.
  eapply (np_binop_Forall _ nonneg nonneg); [|exact Hl|..].
  - intros x y Hx Hy. by apply LNND_score_range.
  - by eapply np_col_Forall.
  - by eapply np_take1_Forall.
Qed.

Lemma LNND_scores_in_unit_witness :
  Forall in_unit_pos [half; Fin (1 / (1 + float_max))].
Proof.
  destruct lnnd_dup_fit as (h & Hfit & ->).
  apply (LNND_scores_in_unit {| LNND.k := KInt 1 |} (exact_index_1d refs_dup)
           [] lnnd_heap_dup lnnd_heap_dup (lnnd_description refs_dup)
           [[fz 0]; [fz 1]] [[1%Z]; [0%Z]] [[0%Z]; [0%Z]]
           [[fz 0]; [fz 0]] [[fz 0]; [fz 1]]).
  - by_evaluation.
  - repeat constructor; by compute.
  - exact Hfit.
  - by_evaluation.
  - repeat constructor; by compute.
  - by_evaluation.
Defined.

Lemma not_negative_fz (n : nat) : not_negative (fz (Z.of_nat n)).
Proof. simpl. apply Qc_of_Z_nonneg. lia. Qed.

Lemma not_negative_fmaximum (x y : npfloat) :
  not_negative x → not_negative y → not_negative (fmaximum x y).
Proof.
  unfold fmaximum. destruct x, y; simpl; try done; by case_decide.
Qed.

Lemma not_negative_fadd (x y : npfloat) :
  not_negative x → not_negative y → not_negative (fadd x y).
Proof.
  destruct x, y; simpl; try done. by apply Qcplus_nonneg_nonneg.
Qed.

Lemma not_negative_np_sum (v : ndarray1) : Forall not_negative v → not_negative (np_sum v).
Proof.
  induction 1 as [|x v Hx _ IH].
  - rewrite np_sum_nil. by compute.
  - rewrite np_sum_cons. by apply not_negative_fadd.
Qed.

Lemma not_negative_fdiv (x y : npfloat) :
  not_negative x → not_negative y → not_negative (fdiv x y).
Proof.
  destruct x as [a| | |], y as [b| | |]; simpl; try done; intros Ha Hb.
  - case_decide as Hb0.
    + case_decide as Ha0; [done|]. case_decide as Hlt; [done|].
      destruct (Qcle_lt_or_eq _ _ Ha) as [?|Heq]; [done|]. by destruct Ha0.
    + apply Qcdiv_nonneg; [done|].
      destruct (Qcle_lt_or_eq _ _ Hb) as [?|Heq]; [done|]. by destruct Hb0.
  - by rewrite decide_True.
Qed.

Lemma not_negative_np_mean (v : ndarray1) :
  Forall not_negative v → not_negative (np_mean v).
Proof.
  intros Hv. apply not_negative_fdiv; [by apply not_negative_np_sum|].
  apply not_negative_fz.
Qed.

(** A local reachability density is not negative when the distances are not. *)
Lemma not_negative_lrd (row : ndarray1) :
  Forall not_negative row → not_negative (fdiv (fz 1) (np_mean row)).
Proof.
  intros Hrow. apply not_negative_fdiv; [by compute|by apply not_negative_np_mean].
Qed.

(** The LOF score from a ratio that is not negative. *)
Lemma LOF_score_range (x : npfloat) :
  not_negative x → in_unit (shifted_reciprocal (nan_to_one x)).
Proof.
  destruct x as [q| | |]; try done.
  intros Hq. change (nan_to_one (Fin q)) with (Fin q).
  pose proof (shifted_reciprocal_nonneg q Hq) as Hs.
  destruct (shifted_reciprocal (Fin q)) as [s| | |]; try done.
  destruct Hs as [Hpos Hle]. split; [by apply Qclt_le_weak|done].
Qed.

(** A successful run of [_query]: the arrays it went through. *)
Lemma LOF_query_ratio (d : LOF.Description) qn qd D L h scores h' :
  h !! LOF.d_distances d = Some D → h !! LOF.d_lrd d = Some L →
  LOF._query d qn qd h = (Ok scores, h') →
  ∃ floor r n_lrd ratio,
    np_take2 D qn = Ok floor ∧ np_binop2 fmaximum qd floor = Ok r ∧
    np_take2 L qn = Ok n_lrd ∧
    np_binop fdiv (np_mean <$> n_lrd) ((λ row, fdiv (fz 1) (np_mean row)) <$> r)
    = Ok ratio ∧
    scores = shifted_reciprocal <$> (nan_to_one <$> ratio).
Proof.
  intros HD HL. unfold LOF._query. rewrite (LOF_get_lrd_run _ _ _ _ _ D HD).
  destruct (np_take2 D qn) as [floor|e] eqn:Hfloor; simpl; [|done].
  destruct (np_binop2 fmaximum qd floor) as [r|e] eqn:Hr; simpl; [|done].
  rewrite (run_load _ _ _ L HL), run_lift.
  destruct (np_take2 L qn) as [n_lrd|e] eqn:Hn; [|done]. rewrite run_lift.
  destruct (np_binop fdiv _ _) as [ratio|e] eqn:Hratio; [|done].
  rewrite run_alloc. unfold mbind at 1.
  change (M_bind _ _ ?f ?m) with (m ≫= f).
  rewrite run_modify_last, (run_load _ _ _ _ (lookup_last _ _)).
  intros [= <- _]. by exists floor, r, n_lrd, ratio.
Qed.

(** Property X14: after a fit of LOF on an index whose self-distances
    are not negative (finite from zero on, infinite or NaN), every score
    of a successful query whose distances are not negative is a finite
    number of the interval from 0 to 1. *)
Theorem LOF_scores_in_unit (model : LOF.Descriptor) (index : Index)
    (h0 h h' : heap) (d : LOF.Description) (X : ndarray2)
    (ns qn : intarray2) (ds qd : ndarray2) (scores : ndarray1) :
  index_query_self index (resolve_k (LOF.k model) index) = Ok (ns, ds) →
  Forall (Forall not_negative) ds →
  LOF.__init__ model index h0 = (Ok d, h) →
  index_query index X (LOF.d_k d) = Ok (qn, qd) →
  Forall (Forall not_negative) qd →
  query d X h = (Ok scores, h') →
  Forall in_unit scores.
Proof.
  intros Hself Hds Hinit Hidx Hqd Hq.
  rewrite LOF_init_run in Hinit. cbv zeta in Hinit. rewrite Hself in Hinit.
  destruct (np_col ds _) as [col|e] eqn:Hcol; [|done].
  destruct (rbind (np_take2 col ns) _) as [lrd|e] eqn:Hlrd; [|done].
  injection Hinit as <- <-.
  assert (Forall not_negative col) as HD by (by eapply np_col_Forall).
  assert (∀ D qn' qd' floor r,
            Forall not_negative D → Forall (Forall not_negative) qd' →
            np_take2 D qn' = Ok floor → np_binop2 fmaximum qd' floor = Ok r →
            Forall not_negative ((λ row, fdiv (fz 1) (np_mean row)) <$> r)) as Hget.
  { intros D qn' qd' floor r HD' Hqd' Hfloor Hr. apply Forall_fmap.
    assert (Forall (Forall not_negative) r) as Hall.
    { eapply (np_binop2_Forall _ not_negative not_negative); [|exact Hr|done|].
      - apply not_negative_fmaximum.
      - by eapply np_take2_Forall. }
    eapply Forall_impl; [exact Hall|]. intros row Hrow. by apply not_negative_lrd. }
  assert (Forall not_negative lrd) as HL.
  { apply rbind_Ok in Hlrd as (floor & Hfloor & Hlrd).
    apply rbind_Ok in Hlrd as (r & Hr & [= <-]).
    exact (Hget col ns ds floor r HD Hds Hfloor Hr). }
  unfold query in Hq. rewrite run_lift in Hq. simpl in Hq, Hidx. rewrite Hidx in Hq.
  apply (LOF_query_ratio _ _ _ col lrd) in Hq
    as (floor & r & n_lrd & ratio & Hfloor & Hr & Hn & Hratio & ->).
  - rewrite <-list_fmap_compose. apply Forall_fmap.
    eapply (np_binop_Forall _ not_negative not_negative); [|exact Hratio|..].
    + intros x y Hx Hy. simpl. by apply LOF_score_range, not_negative_fdiv.
    + apply Forall_fmap.
      eapply Forall_impl; [by eapply np_take2_Forall|].
      intros row Hrow. by apply not_negative_np_mean.
    + exact (Hget col qn qd floor r HD Hqd Hfloor Hr).
  - simpl. rewrite lookup_app_r by lia. by rewrite Nat.sub_diag.
  - simpl. rewrite lookup_app_r by lia.
    by replace (S (length h0) - length h0)%nat with 1%nat by lia.
Qed.

Lemma LOF_scores_in_unit_witness :
  Forall in_unit [half; Fin (1 / Qc_of_Z 8)].
Proof.
  destruct lof4_fit as (h & Hfit & ->).
  apply (LOF_scores_in_unit {| LOF.k := KInt 1 |} (exact_index_1d refs4)
           [] lof_heap4 (lof_heap4 ++ [[fz 1; fz 7]]) (lof_description refs4)
           [[fz 0]; [fz 10]] [[1%Z]; [0%Z]; [3%Z]; [2%Z]] [[0%Z]; [3%Z]]
           [[fz 1]; [fz 1]; [fz 1]; [fz 1]] [[fz 0]; [fz 7]]).
  - by_evaluation.
  - repeat constructor; by compute.
  - exact Hfit.
  - by_evaluation.
  - repeat constructor; by compute.
  - by_evaluation.
Defined.
End score_ranges.

(** ** The shape of a query result and neighbours out of range *)

Section query_shape.

Lemma np_binop_length f a b c :
  np_binop f a b = Ok c → length a = length b → length c = length a.
Proof.
  intros Hc Hlen.
  destruct (np_binop_Ok _ _ _ _ Hc) as [[_ ->]|[(x & -> & ->)|(y & -> & ->)]].
  - rewrite length_zip_with. lia.
  - by rewrite length_fmap.
  - by rewrite length_fmap.
Qed.

Lemma np_binop2_length f a b c :
  np_binop2 f a b = Ok c → length a = length b → length c = length a.
Proof.
  intros Hc Hlen.
  destruct (np_binop2_Ok _ _ _ _ Hc) as [[_ Hm]|[(r & -> & Hm)|(s & -> & Hm)]];
    apply rmapM_length in Hm; rewrite Hm, ?length_zip; simpl in *; lia.
Qed.

Lemma rmapM_Raise_inv {A B} (f : A → result B) l e :
  rmapM f l = Raise e → ∃ x, x ∈ l ∧ f x = Raise e.
Proof.
  induction l as [|a l IH]; [done|]. simpl.
  destruct (f a) as [y|e'] eqn:Ha; simpl.
  - destruct (rmapM f l) as [ys|e'']; [done|]. simpl. intros [= ->].
    destruct IH as (x & Hx & Hfx); [done|]. exists x. split; [by right|done].
  - intros [= ->]. exists a. split; [by left|done].
Qed.

Lemma rmapM_elem_of {A B} (f : A → result B) l ys x y :
  rmapM f l = Ok ys → x ∈ l → f x = Ok y → y ∈ ys.
Proof.
  intros Hm Hx Hy. apply list_elem_of_lookup_1 in Hx as [i Hi].
  destruct (rmapM_lookup _ _ _ _ _ Hm Hi) as (y' & Hy' & Hys).
  rewrite Hy in Hy'. injection Hy' as <-. by eapply list_elem_of_lookup_2.
Qed.

Lemma np_col_Raise {A} (a : list (list A)) j e : np_col a j = Raise e → e = IndexError.
Proof.
  intros Hc. apply rmapM_Raise_inv in Hc as (row & _ & Hrow).
  by eapply py_index_Raise.
Qed.

(** Looking up a neighbour that is out of range fails, with IndexError. *)
Lemma np_take1_out_of_range D idx r :
  r ∈ idx → out_of_range D r → np_take1 D idx = Raise IndexError.
Proof.
  intros Hr Hout.
  destruct (rmapM_Raise (py_index D) idx r IndexError Hr)
    as (e & He & x & _ & Hx); [by apply py_index_out_of_range|].
  unfold np_take1. rewrite He. by rewrite (py_index_Raise _ _ _ Hx).
Qed.

Lemma np_take2_out_of_range D idx row r :
  row ∈ idx → r ∈ row → out_of_range D r → np_take2 D idx = Raise IndexError.
Proof.
  intros Hrow Hr Hout.
  destruct (rmapM_Raise (np_take1 D) idx row IndexError Hrow)
    as (e & He & row' & _ & Hrow'); [by eapply np_take1_out_of_range|].
  unfold np_take2. rewrite He.
  apply rmapM_Raise_inv in Hrow' as (x & _ & Hx).
  by rewrite (py_index_Raise _ _ _ Hx).
Qed.

(** Property X15: a successful query of LNND or LOF returns one score
    for each row of distances the index gave, when the index gave as many
    rows of neighbours as of distances. *)
Theorem query_one_score_per_row :
  (∀ (d : LNND.Description) X h qn qd scores h',
     index_query (LNND.d_index d) X (LNND.d_k d) = Ok (qn, qd) →
     length qn = length qd →
     query d X h = (Ok scores, h') → length scores = length qd) ∧
  (∀ (d : LOF.Description) X h qn qd scores h',
     index_query (LOF.d_index d) X (LOF.d_k d) = Ok (qn, qd) →
     length qn = length qd →
     query d X h = (Ok scores, h') → length scores = length qd).
Proof.
  split.
  - intros d X h qn qd scores h' Hidx Hlen Hq.
    unfold query in Hq. rewrite run_lift in Hq. simpl in Hq. rewrite Hidx in Hq.
    destruct (h !! LNND.d_distances d) as [D|] eqn:HD.
    + rewrite (LNND_query_run d qn qd h D HD) in Hq. injection Hq as Hq _.
      apply rbind_Ok in Hq as (q_col & Hqc & Hq).
      apply rbind_Ok in Hq as (n_col & Hnc & Hq).
      apply rbind_Ok in Hq as (nd & Hnd & Hq).
      apply rbind_Ok in Hq as (l & Hl & [= <-]).
      apply rmapM_length in Hqc, Hnc, Hnd.
      rewrite !length_fmap, (np_binop_length _ _ _ _ Hl); congruence.
    + unfold LNND._query in Hq. rewrite run_lift in Hq.
      destruct (np_col qd _); simpl in Hq; [|done]. rewrite run_lift in Hq.
      destruct (np_col qn _); simpl in Hq; [|done].
      by rewrite run_load_None in Hq.
  - intros d X h qn qd scores h' Hidx Hlen Hq.
    unfold query in Hq. rewrite run_lift in Hq. simpl in Hq. rewrite Hidx in Hq.
    destruct (h !! LOF.d_distances d) as [D|] eqn:HD.
    + destruct (h !! LOF.d_lrd d) as [L|] eqn:HL.
      * destruct (LOF_query_ratio _ _ _ D L _ _ _ HD HL Hq)
          as (floor & r & n_lrd & ratio & Hfloor & Hr & Hn & Hratio & ->).
        apply rmapM_length in Hfloor, Hn.
        apply np_binop2_length in Hr; [|congruence].
        rewrite !length_fmap, (np_binop_length _ _ _ _ Hratio);
          rewrite !length_fmap; congruence.
      * unfold LOF._query in Hq. rewrite (LOF_get_lrd_run _ _ _ _ _ D HD) in Hq.
        destruct (rbind _ _); [|done]. by rewrite run_load_None in Hq.
    + unfold LOF._query, LOF._get_lrd in Hq. rewrite run_bind in Hq.
      by rewrite run_load_None in Hq.
Qed.

Lemma query_one_score_per_row_witness :
  length [half; Fin (1 / (1 + float_max))%Qc] = length [[fz 0]; [fz 1]] ∧
  length [half] = length [[NaN]].
Proof.
  split.
  - apply (proj1 query_one_score_per_row (lnnd_description refs_dup)
             [[fz 0]; [fz 1]] lnnd_heap_dup [[0%Z]; [0%Z]] [[fz 0]; [fz 1]]
             _ lnnd_heap_dup); [by_evaluation|reflexivity|by_evaluation].
  - apply (proj2 query_one_score_per_row (lof_description refs4)
             [[NaN]] lof_heap4 [[0%Z]] [[NaN]] _ (lof_heap4 ++ [[fz 1]]));
      [by_evaluation|reflexivity|by_evaluation].
Defined.

(** Property X16: neither LNND nor LOF checks the neighbour indices.
    When the index names a neighbour outside the reference set (for LNND
    as the k-th neighbour of some row, for LOF anywhere), the query
    raises IndexError, from indexing the fitted self-distances, and
    leaves the heap as it was. *)
Theorem neighbour_out_of_range_raises :
  (∀ (d : LNND.Description) X h qn qd D nrow r,
     index_query (LNND.d_index d) X (LNND.d_k d) = Ok (qn, qd) →
     h !! LNND.d_distances d = Some D →
     nrow ∈ qn → py_index nrow (LNND.d_k d - 1) = Ok r → out_of_range D r →
     query d X h = (Raise IndexError, h)) ∧
  (∀ (d : LOF.Description) X h qn qd D nrow r,
     index_query (LOF.d_index d) X (LOF.d_k d) = Ok (qn, qd) →
     h !! LOF.d_distances d = Some D →
     nrow ∈ qn → r ∈ nrow → out_of_range D r →
     query d X h = (Raise IndexError, h)).
Proof.
  split.
  - intros d X h qn qd D nrow r Hidx HD Hrow Hr Hout.
    unfold query. rewrite run_lift. simpl. rewrite Hidx.
    rewrite (LNND_query_run d qn qd h D HD). f_equal.
    destruct (np_col qd _) as [q_col|e] eqn:Hqc; simpl.
    + destruct (np_col qn _) as [n_col|e] eqn:Hnc; simpl.
      * rewrite (np_take1_out_of_range D n_col r); [done| |done].
        by eapply rmapM_elem_of.
      * by rewrite (np_col_Raise _ _ _ Hnc).
    + by rewrite (np_col_Raise _ _ _ Hqc).
  - intros d X h qn qd D nrow r Hidx HD Hrow Hr Hout.
    unfold query. rewrite run_lift. simpl. rewrite Hidx.
    unfold LOF._query. rewrite (LOF_get_lrd_run _ _ _ _ _ D HD).
    by rewrite (np_take2_out_of_range D qn nrow r).
Qed.

Lemma neighbour_out_of_range_raises_witness :
  query {| LNND.d_k := 1; LNND.d_index := missing_neighbour_index;
           LNND.d_distances := 0%nat |} [[fz 0]] [[PInf]]
  = (Raise IndexError, [[PInf]]) ∧
  query {| LOF.d_k := 1; LOF.d_index := missing_neighbour_index;
           LOF.d_distances := 0%nat; LOF.d_lrd := 1%nat |} [[fz 0]] [[PInf]; [fz 0]]
  = (Raise IndexError, [[PInf]; [fz 0]]).
Proof.
  split.
  - apply (proj1 neighbour_out_of_range_raises
             {| LNND.d_k := 1; LNND.d_index := missing_neighbour_index;
                LNND.d_distances := 0%nat |}
             [[fz 0]] [[PInf]] [[1%Z]] [[PInf]] [PInf] [1%Z] 1%Z);
      [reflexivity|reflexivity|by left|reflexivity|unfold out_of_range; simpl; lia].
  - apply (proj2 neighbour_out_of_range_raises
             {| LOF.d_k := 1; LOF.d_index := missing_neighbour_index;
                LOF.d_distances := 0%nat; LOF.d_lrd := 1%nat |}
             [[fz 0]] [[PInf]; [fz 0]] [[1%Z]] [[PInf]] [PInf] [1%Z] 1%Z);
      [reflexivity|reflexivity|by left|by left|unfold out_of_range; simpl; lia].
Defined.
End query_shape.

(** ** The order of the LNND scores *)

Section lnnd_order.
Local Open Scope Qc_scope.

Lemma shifted_reciprocal_Fin (q : Qc) :
  0 ≤ q → shifted_reciprocal (Fin q) = Fin (/ (1 + q)).
Proof.
  intros Hq. pose proof (Qc_one_plus_pos q Hq) as Hpos.
  unfold shifted_reciprocal, fz. rewrite Z2Qc_inj_1.
  change (fadd (Fin 1) (Fin q)) with (Fin (1 + q)).
  rewrite fdiv_Fin by (by apply Qc_pos_nonzero).
  unfold Qcdiv. by rewrite Qcmult_1_l.
Qed.

(** The LNND score of a finite distance [a] over a self-distance [b]. *)
Lemma LNND_score_cases (a b : Qc) :
  0 ≤ a → 0 ≤ b →
  shifted_reciprocal (nan_to_num_keep_nan (div_or1 (fz 1) (Fin a) (Fin b)))
  = Fin (if decide (b = 0)
         then if decide (a = 0) then 1 / 2 else 1 / (1 + float_max)
         else / (1 + a / b)).
Proof.
  intros Ha Hb. unfold div_or1, fz. rewrite Z2Qc_inj_0, Z2Qc_inj_1.
  destruct (decide (b = 0)) as [->|Hb0].
  - destruct (decide (a = 0)) as [->|Ha0].
    + rewrite decide_True by done. by_evaluation.
    + rewrite decide_False by (intros [[= ?] _]; done).
      unfold fdiv. rewrite decide_True, decide_False, decide_True; try done.
      destruct (Qcle_lt_or_eq _ _ Ha) as [Hlt|Heq]; [done|]. by destruct Ha0.
  - rewrite decide_False by (intros [_ [= ?]]; done).
    rewrite fdiv_Fin by done. cbn [nan_to_num_keep_nan].
    apply shifted_reciprocal_Fin, Qcdiv_nonneg; [done|].
    destruct (Qcle_lt_or_eq _ _ Hb) as [Hlt|Heq]; [done|]. by destruct Hb0.
Qed.

(** Property X17: the LNND score does not grow with the distance.  Of
    two query points that have the same k-th nearest reference point, at
    finite distances that are not negative, the farther one scores at
    most what the nearer one scores, whatever finite self-distance from
    zero on the reference point has. *)
Theorem LNND_score_antitone (d : LNND.Description) X h qn qd scores h' i j r
    (a a' b : Qc) :
  index_query (LNND.d_index d) X (LNND.d_k d) = Ok (qn, qd) →
  length qn = length qd →
  query d X h = (Ok scores, h') →
  kth_neighbour qn qd (LNND.d_k d) i r (Fin a) →
  kth_neighbour qn qd (LNND.d_k d) j r (Fin a') →
  LNND_self_distance d h r (Fin b) →
  0 ≤ a → a ≤ a' → 0 ≤ b →
  ∃ s s', scores !! i = Some (Fin s) ∧ scores !! j = Some (Fin s') ∧ s' ≤ s.
Proof.
  intros Hidx Hshape Hq Hi Hj Hsd Ha Haa' Hb.
  assert (0 ≤ a') as Ha' by (exact (Qcle_trans _ _ _ Ha Haa')).
  rewrite (LNND_score_at _ _ _ _ _ _ _ _ _ _ _ Hidx Hshape Hq Hi Hsd).
  rewrite (LNND_score_at _ _ _ _ _ _ _ _ _ _ _ Hidx Hshape Hq Hj Hsd).
  rewrite !LNND_score_cases by done.
  eexists _, _. split; [done|]. split; [done|].
  destruct (decide (b = 0)) as [->|Hb0].
  - destruct (decide (a = 0)) as [->|Ha0].
    + destruct (decide (a' = 0)); [apply Qcle_refl|by compute].
    + rewrite decide_False; [apply Qcle_refl|].
      intros ->. apply Ha0. by apply Qcle_antisym.
  - assert (0 < b) as Hbpos.
    { destruct (Qcle_lt_or_eq _ _ Hb) as [Hlt|Heq]; [done|]. by destruct Hb0. }
    apply Qcinv_le_anti.
    + apply Qc_one_plus_pos. by apply Qcdiv_nonneg.
    + apply Qcplus_le_compat; [apply Qcle_refl|]. by apply Qcdiv_le_mono.
Qed.

Lemma LNND_score_antitone_witness :
  ∃ s s', [half; Fin (1 / (1 + float_max))] !! 0%nat = Some (Fin s) ∧
          [half; Fin (1 / (1 + float_max))] !! 1%nat = Some (Fin s') ∧ s' ≤ s.
Proof.
  apply (LNND_score_antitone (lnnd_description refs_dup) [[fz 0]; [fz 1]] lnnd_heap_dup
           [[0%Z]; [0%Z]] [[fz 0]; [fz 1]] _ lnnd_heap_dup 0 1 0
           (Qc_of_Z 0) (Qc_of_Z 1) (Qc_of_Z 0)).
  - by_evaluation.
  - reflexivity.
  - by_evaluation.
  - by exists [0%Z], [fz 0].
  - by exists [0%Z], [fz 1].
  - apply lnnd_dup_self_distance.
  - by compute.
  - by compute.
  - by compute.
Defined.
End lnnd_order.

(** ** An operator as a weighted sum of order statistics *)

Section order_statistics.
Local Open Scope Qc_scope.

(** Property X18: what [_apply] computes on finite data.  For k finite
    weights w and a vector of at least k finite values, the soft minimum
    is the sum of w[i] times the i-th smallest value, whatever [max_like]
    is; the soft maximum is the sum of w[i] times the i-th largest value
    when the operator is max-like, and the sum of w[k-1-i] times the i-th
    largest value when it is not. *)
Theorem owa_weighted_order_statistics (ws vs : list Qc) (ml : bool)
    (nm : option string) :
  (length ws ≤ length vs)%nat →
  let op := OWAOperator.__init__ (Fin <$> ws) ml nm in
  let ascending := merge_sort Qcle vs in
  let descending := reverse (merge_sort Qcle vs) in
  OWAOperator.soft_min op (Fin <$> vs)
  = Ok (Fin (Qdot (take (length ws) ascending) ws)) ∧
  OWAOperator.soft_max op (Fin <$> vs)
  = Ok (Fin (Qdot (take (length ws) descending) (if ml then ws else reverse ws))).
Proof.
  intros Hlen op ascending descending.
  assert (length ascending = length vs) as Hs
    by (unfold ascending; by rewrite merge_sort_Permutation).
  unfold OWAOperator.soft_max, OWAOperator.soft_min, op.
  rewrite !apply_Qdot by done. fold ascending. fold descending. split.
  - rewrite andb_false_r, Qdot_reverse; [done|]. rewrite length_take. lia.
  - by rewrite andb_true_r.
Qed.

Lemma owa_weighted_order_statistics_witness :
  let op := OWAOperator.__init__ (Fin <$> [(1 / 2)%Qc; (1 / 2)%Qc]) true None in
  let ascending := merge_sort Qcle [Qc_of_Z 3; Qc_of_Z 1; Qc_of_Z 2] in
  let descending := reverse (merge_sort Qcle [Qc_of_Z 3; Qc_of_Z 1; Qc_of_Z 2]) in
  OWAOperator.soft_min op (Fin <$> [Qc_of_Z 3; Qc_of_Z 1; Qc_of_Z 2])
  = Ok (Fin (Qdot (take (length [(1 / 2)%Qc; (1 / 2)%Qc]) ascending)
               [(1 / 2)%Qc; (1 / 2)%Qc])) ∧
  OWAOperator.soft_max op (Fin <$> [Qc_of_Z 3; Qc_of_Z 1; Qc_of_Z 2])
  = Ok (Fin (Qdot (take (length [(1 / 2)%Qc; (1 / 2)%Qc]) descending)
               (if true then [(1 / 2)%Qc; (1 / 2)%Qc]
                else reverse [(1 / 2)%Qc; (1 / 2)%Qc]))).
Proof.
  apply (owa_weighted_order_statistics [(1 / 2)%Qc; (1 / 2)%Qc]
           [Qc_of_Z 3; Qc_of_Z 1; Qc_of_Z 2] true None).
  simpl. lia.
Defined.
End order_statistics.

(** ** The fitted arrays, point by point *)

Section fitted_arrays.
Local Open Scope Qc_scope.

Lemma py_index_nat {A} (l : list A) (i : nat) (x : A) :
  l !! i = Some x → py_index l (Z.of_nat i) = Ok x.
Proof.
  intros Hi. pose proof (lookup_lt_Some _ _ _ Hi) as Hlt.
  unfold py_index. cbv zeta. rewrite (decide_False (P := (Z.of_nat i < 0)%Z)) by lia.
  rewrite decide_True by lia. by rewrite Nat2Z.id, Hi.
Qed.

Lemma np_binop2_lookup f a b c i r s :
  np_binop2 f a b = Ok c → length a = length b →
  a !! i = Some r → b !! i = Some s →
  ∃ t, np_binop f r s = Ok t ∧ c !! i = Some t.
Proof.
  intros Hc Hlen Hr Hs. unfold np_binop2 in Hc. rewrite decide_True in Hc by done.
  apply (rmapM_lookup _ _ _ i (r, s) Hc).
  by apply lookup_zip_Some.
Qed.

(** One row of the reachability distances and its density. *)
Lemma reachability_row D qn qd floor r i nrow drow :
  np_take2 D qn = Ok floor → np_binop2 fmaximum qd floor = Ok r →
  length qn = length qd → qn !! i = Some nrow → qd !! i = Some drow →
  length nrow = length drow →
  ∃ kd, np_take1 D nrow = Ok kd ∧ r !! i = Some (zip_with fmaximum drow kd).
Proof.
  intros Hfloor Hr Hlen Hn Hd Hrow.
  destruct (rmapM_lookup _ _ _ _ _ Hfloor Hn) as (kd & Hkd & Hfi).
  exists kd. split; [done|].
  destruct (np_binop2_lookup _ _ _ _ i drow kd Hr) as (t & Ht & Hri); try done.
  { apply rmapM_length in Hfloor. congruence. }
  rewrite np_binop_same_length in Ht; [by injection Ht as <-|].
  apply rmapM_length in Hkd. congruence.
Qed.

(** Property X19: what fit stores.  LNND and LOF keep, for the i-th
    reference point, entry k-1 of the i-th row of distances that
    [query_self] returned (Python indexing: for k = 0 the last entry), in
    a new array, without touching the arrays that existed before; LOF
    also keeps the local reachability density of the point: 1 over the
    mean, over its neighbours j, of the larger of the distance to j and
    the stored distance of j. *)
Theorem fit_stores (index : Index) (k : kparam) (h0 : heap)
    (ns : intarray2) (ds : ndarray2) (i : nat) (nrow : intarray1) (drow : ndarray1) :
  index_query_self index (resolve_k k index) = Ok (ns, ds) →
  ns !! i = Some nrow → ds !! i = Some drow →
  length ns = length ds → length nrow = length drow →
  (∀ d h, LNND.__init__ {| LNND.k := k |} index h0 = (Ok d, h) →
     h0 `prefix_of` h ∧
     ∃ sd, py_index drow (resolve_k k index - 1) = Ok sd ∧
           LNND_self_distance d h (Z.of_nat i) sd) ∧
  (∀ d h, LOF.__init__ {| LOF.k := k |} index h0 = (Ok d, h) →
     h0 `prefix_of` h ∧
     ∃ D L sd kd,
       h !! LOF.d_distances d = Some D ∧ h !! LOF.d_lrd d = Some L ∧
       py_index drow (resolve_k k index - 1) = Ok sd ∧ D !! i = Some sd ∧
       np_take1 D nrow = Ok kd ∧
       L !! i = Some (fdiv (fz 1) (np_mean (zip_with fmaximum drow kd)))).
Proof.
  intros Hself Hn Hd Hlen Hrow. split.
  - intros d h. rewrite LNND_init_run. cbv zeta. simpl LNND.k. rewrite Hself.
    destruct (np_col ds _) as [col|e] eqn:Hcol; [|done]. intros [= <- <-].
    split; [by eexists|].
    destruct (rmapM_lookup _ _ _ _ _ Hcol Hd) as (sd & Hsd & Hci).
    exists sd. split; [done|]. exists col. split; [apply lookup_last|].
    by apply py_index_nat.
  - intros d h. rewrite LOF_init_run. cbv zeta. simpl LOF.k. rewrite Hself.
    destruct (np_col ds _) as [col|e] eqn:Hcol; [|done].
    destruct (rbind (np_take2 col ns) _) as [lrd|e] eqn:Hlrd; [|done].
    intros [= <- <-]. split; [by eexists|].
    destruct (rmapM_lookup _ _ _ _ _ Hcol Hd) as (sd & Hsd & Hci).
    apply rbind_Ok in Hlrd as (floor & Hfloor & Hlrd).
    apply rbind_Ok in Hlrd as (r & Hr & [= <-]).
    destruct (reachability_row _ _ _ _ _ _ _ _ Hfloor Hr Hlen Hn Hd Hrow)
      as (kd & Hkd & Hri).
    exists col, ((λ row, fdiv (fz 1) (np_mean row)) <$> r), sd, kd. simpl.
    repeat split; try done.
    + rewrite lookup_app_r by lia. by rewrite Nat.sub_diag.
    + rewrite lookup_app_r by lia.
      by replace (S (length h0) - length h0)%nat with 1%nat by lia.
    + by rewrite list_lookup_fmap, Hri.
Qed.

Lemma fit_stores_witness :
  (∀ d h, LNND.__init__ {| LNND.k := KInt 1 |} (exact_index_1d refs4) [] = (Ok d, h) →
     [] `prefix_of` h ∧
     ∃ sd, py_index [fz 1] (resolve_k (KInt 1) (exact_index_1d refs4) - 1) = Ok sd ∧
           LNND_self_distance d h (Z.of_nat 0) sd) ∧
  (∀ d h, LOF.__init__ {| LOF.k := KInt 1 |} (exact_index_1d refs4) [] = (Ok d, h) →
     [] `prefix_of` h ∧
     ∃ D L sd kd,
       h !! LOF.d_distances d = Some D ∧ h !! LOF.d_lrd d = Some L ∧
       py_index [fz 1] (resolve_k (KInt 1) (exact_index_1d refs4) - 1) = Ok sd ∧
       D !! 0%nat = Some sd ∧
       np_take1 D [1%Z] = Ok kd ∧
       L !! 0%nat = Some (fdiv (fz 1) (np_mean (zip_with fmaximum [fz 1] kd)))).
Proof.
  apply (fit_stores (exact_index_1d refs4) (KInt 1) []
           [[1%Z]; [0%Z]; [3%Z]; [2%Z]] [[fz 1]; [fz 1]; [fz 1]; [fz 1]] 0 [1%Z] [fz 1]).
  - by_evaluation.
  - reflexivity.
  - reflexivity.
  - reflexivity.
  - reflexivity.
Defined.

Lemma rmapM_const {A B} (f : A → result B) l ys c :
  rmapM f l = Ok ys → Forall (λ x, f x = Ok c) l → ys = replicate (length l) c.
Proof.
  intros Hm Hl. revert ys Hm. induction Hl as [|x l Hx _ IH]; intros ys Hm.
  - by injection Hm as <-.
  - apply rmapM_Ok_cons in Hm as (y & ys' & Hy & Hys & ->).
    rewrite Hx in Hy. injection Hy as <-. simpl. by rewrite (IH ys').
Qed.

Lemma Forall_eq_replicate {A} (l : list A) (c : A) :
  Forall (λ x, x = c) l → l = replicate (length l) c.
Proof. induction 1 as [|x l -> _ IH]; [done|]. simpl. by rewrite <-IH. Qed.

Lemma np_sum_zeros (n : nat) : np_sum (replicate n (fz 0)) = fz 0.
Proof.
  induction n as [|n IH]; [done|]. simpl replicate. rewrite np_sum_cons, IH.
  by_evaluation.
Qed.

Lemma np_sum_infs (n : nat) : np_sum (replicate (S n) PInf) = PInf.
Proof.
  induction n as [|n IH]; [done|].
  change (replicate (S (S n)) PInf) with (PInf :: replicate (S n) PInf).
  by rewrite np_sum_cons, IH.
Qed.

(** Infinite densities over an infinite density: the ratio is NaN. *)
Lemma duplicate_ratio (n : nat) :
  fdiv (np_mean (replicate n PInf))
       (fdiv (fz 1) (np_mean (replicate n (fz 0)))) = NaN.
Proof.
  destruct n as [|n]; [done|].
  unfold np_mean. rewrite np_sum_infs, np_sum_zeros, !length_replicate.
  assert (Qc_of_Z (Z.of_nat (S n)) ≠ 0) as Hn by (apply Qc_of_Z_nonzero; lia).
  assert (0 ≤ Qc_of_Z (Z.of_nat (S n))) as Hn' by (apply Qc_of_Z_nonneg; lia).
  rewrite (fdiv_fz 0 (Z.of_nat (S n))) by lia.
  unfold fz at 1. cbn [fdiv]. rewrite decide_True by done.
  rewrite Z2Qc_inj_0. unfold Qcdiv. rewrite Qcmult_0_l.
  by_evaluation.
Qed.

(** Property X20: duplicated points get the LOF score 1/2.  For a query
    point at distance 0 from all its k neighbours, each of which was
    fitted with the self-distance 0 and an infinite local reachability
    density, the density of the query point is infinite too, the ratio
    inf/inf is NaN, the NaN is replaced by 1, and the score is 1/2. *)
Theorem LOF_duplicates_half (d : LOF.Description) X h qn qd scores h' D L
    (i : nat) (nrow : intarray1) (drow : ndarray1) :
  index_query (LOF.d_index d) X (LOF.d_k d) = Ok (qn, qd) →
  length qn = length qd →
  query d X h = (Ok scores, h') →
  h !! LOF.d_distances d = Some D → h !! LOF.d_lrd d = Some L →
  qn !! i = Some nrow → qd !! i = Some drow → length nrow = length drow →
  Forall (λ x, x = fz 0) drow →
  Forall (λ r, py_index D r = Ok (fz 0)) nrow →
  Forall (λ r, py_index L r = Ok PInf) nrow →
  scores !! i = Some half.
Proof.
  intros Hidx Hlen Hq HD HL Hn Hd Hrow Hzero HDn HLn.
  unfold query in Hq. rewrite run_lift in Hq. simpl in Hq. rewrite Hidx in Hq.
  destruct (LOF_query_ratio _ _ _ D L _ _ _ HD HL Hq)
    as (floor & r & n_lrd & ratio & Hfloor & Hr & Hnl & Hratio & ->).
  destruct (reachability_row _ _ _ _ _ _ _ _ Hfloor Hr Hlen Hn Hd Hrow)
    as (kd & Hkd & Hri).
  destruct (rmapM_lookup _ _ _ _ _ Hnl Hn) as (nl & Hnli & Hni).
  rewrite (rmapM_const _ _ _ _ Hkd HDn) in Hri.
  rewrite (rmapM_const _ _ _ _ Hnli HLn) in Hni.
  rewrite (Forall_eq_replicate _ _ Hzero), <-Hrow, zip_with_replicate in Hri.
  rewrite np_binop_same_length in Hratio.
  - injection Hratio as <-.
    change (fmaximum (fz 0) (fz 0)) with (fz 0) in Hri.
    rewrite !list_lookup_fmap, lookup_zip_with, !list_lookup_fmap, Hni, Hri.
    cbn [mbind option_bind fmap option_fmap option_map].
    by rewrite duplicate_ratio, <-shifted_reciprocal_one.
  - apply rmapM_length in Hfloor, Hnl. apply np_binop2_length in Hr; [|congruence].
    rewrite !length_fmap. congruence.
Qed.

Lemma lof_dup_fit :
  ∃ h, LOF.__init__ {| LOF.k := KInt 1 |} (exact_index_1d refs_dup) []
       = (Ok (lof_description refs_dup), h) ∧ h = lof_heap_dup.
Proof. eexists. split; [reflexivity|by_evaluation]. Qed.

Lemma LOF_duplicates_half_witness : [half] !! 0%nat = Some half.
Proof.
  apply (LOF_duplicates_half (lof_description refs_dup) [[fz 0]] lof_heap_dup
           [[0%Z]] [[fz 0]] [half] (lof_heap_dup ++ [[fz 1]])
           [fz 0; fz 0] [PInf; PInf] 0 [0%Z] [fz 0]).
  - by_evaluation.
  - reflexivity.
  - by_evaluation.
  - reflexivity.
  - reflexivity.
  - reflexivity.
  - reflexivity.
  - reflexivity.
  - by repeat constructor.
  - by repeat constructor.
  - by repeat constructor.
Defined.
End fitted_arrays.

(** ** The soft minimum is below the soft maximum *)

Section soft_order.
Local Open Scope Qc_scope.

Lemma Qdot_snoc (a w : list Qc) (x y : Qc) :
  length a = length w → Qdot (a ++ [x]) (w ++ [y]) = Qdot a w + x * y.
Proof.
  intros Hlen. rewrite Qdot_app, Qdot_cons by done.
  change (Qdot [] []) with (Q2Qc 0). ring.
Qed.

Lemma Qcle_sub_nonneg (x y : Qc) : x ≤ y → 0 ≤ y - x.
Proof.
  intros Hxy. apply (Qcplus_le_mono_r _ _ x).
  by replace (y - x + x) with y by ring; rewrite Qcplus_0_l.
Qed.

(** The rearrangement inequality for the reversal: two vectors in
    descending order have a larger product sum than one of them with the
    other reversed. *)
Lemma rearrangement_reverse (n : nat) (x w : list Qc) :
  length x = n → length w = n →
  StronglySorted (flip Qcle) x → StronglySorted (flip Qcle) w →
  Qdot (reverse x) w ≤ Qdot x w.
Proof.
  revert x w. induction n as [n IH] using lt_wf_ind. intros x w Hx Hw Sx Sw.
  destruct x as [|x0 x']; [apply Qcle_refl|].
  destruct w as [|w0 w']; [simpl in *; lia|].
  destruct x' as [|xl xm _] using rev_ind.
  { apply Qcle_refl. }
  destruct w' as [|wl wm _] using rev_ind.
  { simpl in *. rewrite length_app in Hx. simpl in *. lia. }
  simpl in Hx, Hw. rewrite length_app in Hx, Hw. simpl in Hx, Hw.
  apply StronglySorted_cons in Sx as [Hx0 Sx], Sw as [Hw0 Sw].
  apply StronglySorted_app_1_l in Sx, Sw.
  assert (xl ≤ x0) as Hxl.
  { rewrite Forall_forall in Hx0. apply (Hx0 xl), elem_of_app. right. by left. }
  assert (wl ≤ w0) as Hwl.
  { rewrite Forall_forall in Hw0. apply (Hw0 wl), elem_of_app. right. by left. }
  pose proof (IH (length xm) ltac:(lia) xm wm eq_refl ltac:(lia) Sx Sw) as IHm.
  rewrite reverse_cons, reverse_app. simpl app.
  change ((xl :: reverse xm) ++ [x0]) with (xl :: (reverse xm ++ [x0])).
  rewrite !Qdot_cons, !Qdot_snoc by (rewrite ?length_reverse; lia).
  replace (x0 * w0 + (Qdot xm wm + xl * wl))
    with ((xl * w0 + x0 * wl) + ((x0 - xl) * (w0 - wl) + Qdot xm wm)) by ring.
  replace (xl * w0 + (Qdot (reverse xm) wm + x0 * wl))
    with ((xl * w0 + x0 * wl) + (0 + Qdot (reverse xm) wm)) by ring.
  apply Qcplus_le_compat; [apply Qcle_refl|].
  apply Qcplus_le_compat; [|done].
  apply Qcmult_nonneg_nonneg; by apply Qcle_sub_nonneg.
Qed.

Lemma sorted_take_le_drop (qs : list Qc) (n : nat) :
  Sorted Qcle qs → (n ≤ length qs)%nat →
  Forall2 Qcle (take n qs) (drop (length qs - n) qs).
Proof.
  intros Hs Hn. apply Sorted_StronglySorted in Hs; [|apply _].
  apply Forall2_same_length_lookup_2.
  - rewrite length_take, length_drop. lia.
  - intros i x y Hx Hy. rewrite lookup_drop in Hy.
    apply lookup_take_Some in Hx as [Hx _].
    apply (StronglySorted_lookup_le qs i (length qs - n + i) x y); [done|lia|done..].
Qed.

(** The soft minimum and the soft maximum of an operator with finite
    weights from zero on that, if it is max-like, are in descending order. *)
Lemma oriented_soft_min_le_soft_max (ws vs : list Qc) (ml : bool) (nm : option string) :
  Forall (λ q, 0 ≤ q) ws → (ml = true → Sorted (flip Qcle) ws) →
  (length ws ≤ length vs)%nat →
  ∃ a b, OWAOperator.soft_min (OWAOperator.__init__ (Fin <$> ws) ml nm) (Fin <$> vs)
         = Ok (Fin a) ∧
         OWAOperator.soft_max (OWAOperator.__init__ (Fin <$> ws) ml nm) (Fin <$> vs)
         = Ok (Fin b) ∧
         a ≤ b.
Proof.
  intros Hw Hdesc Hlen. set (qs := merge_sort Qcle vs).
  assert (Sorted Qcle qs) as Hs by apply Sorted_merge_sort, _.
  assert (length qs = length vs) as Hqs
    by (unfold qs; by rewrite merge_sort_Permutation).
  eexists _, _. unfold OWAOperator.soft_max, OWAOperator.soft_min.
  rewrite !apply_Qdot by done. fold qs. split; [done|]. split; [done|].
  rewrite andb_false_r, andb_true_r. destruct ml.
  - rewrite Qdot_reverse by (rewrite length_take; lia).
    apply Qcle_trans with (Qdot (drop (length qs - length ws) qs) ws).
    + apply Qdot_mono; [|done]. apply sorted_take_le_drop; [done|lia].
    + rewrite <-(reverse_involutive (drop _ qs)), <-take_reverse.
      apply (rearrangement_reverse (length ws)).
      * rewrite length_take, length_reverse. lia.
      * done.
      * apply (StronglySorted_app_1_l _ _ (drop (length ws) (reverse qs))).
        rewrite take_drop. apply Sorted_StronglySorted; [apply _|].
        by apply Sorted_reverse.
      * apply Sorted_StronglySorted; [apply _|]. by apply Hdesc.
  - apply Qdot_mono; [|by apply Forall_reverse].
    apply sorted_bottom_le_top; [done|lia].
Qed.

(** Property X21: for a max-like operator whose k finite weights are not
    negative and in descending order, the soft minimum of a vector of at
    least k finite values is at most its soft maximum. *)
Theorem max_like_soft_min_le_soft_max (ws vs : list Qc) (nm : option string) :
  Forall (λ q, 0 ≤ q) ws → Sorted (flip Qcle) ws → (length ws ≤ length vs)%nat →
  let op := OWAOperator.__init__ (Fin <$> ws) true nm in
  ∃ a b, OWAOperator.soft_min op (Fin <$> vs) = Ok (Fin a) ∧
         OWAOperator.soft_max op (Fin <$> vs) = Ok (Fin b) ∧
         a ≤ b.
Proof. intros Hw Hs Hlen op. by apply oriented_soft_min_le_soft_max. Qed.

Lemma max_like_soft_min_le_soft_max_witness :
  let op := OWAOperator.__init__
              (Fin <$> [Qc_of_Z 2 / Qc_of_Z 3; Qc_of_Z 1 / Qc_of_Z 3]) true None in
  ∃ a b, OWAOperator.soft_min op (Fin <$> [Qc_of_Z 3; Qc_of_Z 1; Qc_of_Z 2]) = Ok (Fin a) ∧
         OWAOperator.soft_max op (Fin <$> [Qc_of_Z 3; Qc_of_Z 1; Qc_of_Z 2]) = Ok (Fin b) ∧
         a ≤ b.
Proof.
  apply (max_like_soft_min_le_soft_max [Qc_of_Z 2 / Qc_of_Z 3; Qc_of_Z 1 / Qc_of_Z 3]
           [Qc_of_Z 3; Qc_of_Z 1; Qc_of_Z 2] None).
  - repeat constructor; by compute.
  - repeat constructor; by compute.
  - simpl. lia.
Defined.

Lemma nonneg_Fin (l : ndarray1) :
  Forall nonneg l → ∃ ws, l = Fin <$> ws ∧ Forall (λ q, 0 ≤ q) ws.
Proof.
  induction 1 as [|x l Hx _ (ws & -> & Hws)]; [by exists []|].
  destruct x as [q| | |]; try done. exists (q :: ws). split; [done|]. by constructor.
Qed.

Lemma Sorted_fge_Fin (ws : list Qc) :
  Sorted fge (Fin <$> ws) → Sorted (flip Qcle) ws.
Proof.
  induction ws as [|q ws IH]; intros Hs; [constructor|].
  rewrite fmap_cons in Hs. apply Sorted_inv in Hs as [Hs Hhd].
  constructor; [by apply IH|].
  destruct ws as [|q' ws]; constructor. by apply HdRel_inv in Hhd.
Qed.

(** A family member at [k], with its weights as rationals. *)
Lemma family_member_Qc (family : Z → result OWAOperator.t) (k : Z) op (ml : bool) :
  family k = Ok op → OWAOperator.max_like op = ml →
  OWAOperator.k op = k → length (OWAOperator.w op) = Z.to_nat k → (0 ≤ k)%Z →
  Forall nonneg (OWAOperator.w op) →
  (ml = true → Sorted fge (OWAOperator.w op)) →
  ∃ ws nm, family k = Ok (OWAOperator.__init__ (Fin <$> ws) ml nm) ∧
           length ws = Z.to_nat k ∧ Forall (λ q, 0 ≤ q) ws ∧
           (ml = true → Sorted (flip Qcle) ws).
Proof.
  intros Hop Hml Hk Hlen Hk0 Hnn Hs.
  destruct (nonneg_Fin _ Hnn) as (ws & Hws & Hpos).
  exists ws, (OWAOperator.name op). rewrite Hop.
  destruct op as [w k' ml' nm]. simpl in *. subst.
  rewrite length_fmap in Hlen.
  repeat split; [|done..|].
  - unfold OWAOperator.__init__. rewrite length_fmap, Hlen. do 2 f_equal. lia.
  - intros Hml. by apply Sorted_fge_Fin, Hs.
Qed.

Lemma family_soft_min_le_soft_max (family : Z → result OWAOperator.t) (k : Z)
    (vs : list Qc) op (ml : bool) :
  family k = Ok op → OWAOperator.max_like op = ml →
  OWAOperator.k op = k → length (OWAOperator.w op) = Z.to_nat k →
  (0 ≤ k ≤ Z.of_nat (length vs))%Z →
  Forall nonneg (OWAOperator.w op) →
  (ml = true → Sorted fge (OWAOperator.w op)) →
  ∃ op a b, family k = Ok op ∧
            OWAOperator.soft_min op (Fin <$> vs) = Ok (Fin a) ∧
            OWAOperator.soft_max op (Fin <$> vs) = Ok (Fin b) ∧
            a ≤ b.
Proof.
  intros Hop Hml Hk Hlen Hkv Hnn Hs.
  destruct (family_member_Qc family k op ml) as (ws & nm & Hop' & Hwlen & Hpos & Hdesc);
    [done..|lia|done|done|].
  destruct (oriented_soft_min_le_soft_max ws vs ml nm Hpos Hdesc) as (a & b & Ha & Hb & Hab);
    [lia|].
  by exists (OWAOperator.__init__ (Fin <$> ws) ml nm), a, b.
Qed.

(** Property X22: for every predefined family and every k from 1 on, the
    operator of length k is built, and on every vector of at least k
    finite values its soft minimum is at most its soft maximum. *)
Theorem families_soft_min_le_soft_max (k : Z) (vs : list Qc) :
  (1 ≤ k ≤ Z.of_nat (length vs))%Z →
  Forall (λ family : Z → result OWAOperator.t,
            ∃ op a b, family k = Ok op ∧
                      OWAOperator.soft_min op (Fin <$> vs) = Ok (Fin a) ∧
                      OWAOperator.soft_max op (Fin <$> vs) = Ok (Fin b) ∧
                      a ≤ b)
         [additive; exponential; invadd; mean; trimmed].
Proof.
  intros Hk. repeat apply Forall_cons_2; [..|constructor].
  - destruct (additive_simplex k) as (op & Hop & Hkop & Hlen & Hnn & _); [lia|].
    destruct (additive_ascending k) as (op' & Hop' & Hml & _); [lia|].
    rewrite Hop in Hop'. injection Hop' as <-.
    apply (family_soft_min_le_soft_max additive k vs op false); try done; lia.
  - destruct (exponential_descending k) as (op' & Hop' & Hml & Hs); [lia|].
    assert (∃ op, exponential k = Ok op ∧ OWAOperator.k op = k ∧
                  length (OWAOperator.w op) = Z.to_nat k ∧
                  Forall nonneg (OWAOperator.w op)) as (op & Hop & Hkop & Hlen & Hnn).
    { destruct (decide (k < 32)%Z).
      - destruct (exponential_simplex k) as (op & ? & ? & ? & ? & _); [lia|].
        by exists op.
      - destruct (exponential_fallback k) as (op & ? & ? & ? & ? & _); [lia|].
        by exists op. }
    rewrite Hop in Hop'. injection Hop' as <-.
    apply (family_soft_min_le_soft_max exponential k vs op true); try done; lia.
  - destruct (invadd_simplex k) as (op & Hop & Hkop & Hlen & Hnn & _); [lia|].
    destruct (invadd_descending k) as (op' & Hop' & Hml & Hs); [lia|].
    rewrite Hop in Hop'. injection Hop' as <-.
    apply (family_soft_min_le_soft_max invadd k vs op true); try done; lia.
  - destruct (mean_simplex k) as (op & Hop & Hkop & Hlen & Hnn & _); [lia|].
    destruct (mean_constant k) as (op' & Hop' & Hml & _); [lia|].
    rewrite Hop in Hop'. injection Hop' as <-.
    apply (family_soft_min_le_soft_max mean k vs op false); try done; lia.
  - destruct (trimmed_simplex k) as (op & Hop & Hkop & Hlen & Hnn & _); [lia|].
    destruct (trimmed_ascending k) as (op' & Hop' & Hml & _); [lia|].
    rewrite Hop in Hop'. injection Hop' as <-.
    apply (family_soft_min_le_soft_max trimmed k vs op false); try done; lia.
Qed.

Lemma families_soft_min_le_soft_max_witness :
  Forall (λ family : Z → result OWAOperator.t,
            ∃ op a b, family 2%Z = Ok op ∧
                      OWAOperator.soft_min op (Fin <$> [Qc_of_Z 3; Qc_of_Z 1; Qc_of_Z 2])
                      = Ok (Fin a) ∧
                      OWAOperator.soft_max op (Fin <$> [Qc_of_Z 3; Qc_of_Z 1; Qc_of_Z 2])
                      = Ok (Fin b) ∧
                      a ≤ b)
         [additive; exponential; invadd; mean; trimmed].
Proof.
  apply (families_soft_min_le_soft_max 2 [Qc_of_Z 3; Qc_of_Z 1; Qc_of_Z 2]).
  simpl. lia.
Defined.
End soft_order.
